(** * DevOps-RAG-Agent: the local retrieval core

    A shallow embedding of [src/utils/textProcessor.ts] (the recursive
    separator-hierarchy splitter and [createChunksFromDoc]) and of
    [src/utils/search.ts] (tokenizer, Jaccard-style scorer and top-K
    retrieval), followed by the properties of the specification that hold
    of them and the inputs at which the others fail.

    Conventions of the embedding.
    - A JavaScript string is the list of its UTF-16 code units, each a [Z];
      [String.prototype.length] is the length of that list.
    - [chunkSize], [chunkOverlap] and [topK] are integers ([Z]); the
      specification's contract gives them the type int.
    - The [for] loop of the hard split and the recursion of [splitText]
      consume fuel: [None] is "still running when the fuel ran out".  The
      source contains no [throw], so there is no other failure.
    - A score is a rational ([Q]), the exact quotient of two token counts.
      Two different quotients of counts below 2^26 are different doubles,
      so the comparator of the sort sees the same order on both. *)

From Stdlib Require Import ZArith QArith Lia Lqa.
From stdpp Require Import base list strings sorting gmap.

Local Open Scope Z_scope.

(** ** JavaScript primitives used by the two source files *)

Module JS.

Abbreviation jsstring := (list Z).

Definition len {A} (s : list A) : Z := Z.of_nat (length s).

(** Truthiness of a string: the empty string is the only falsy one. *)
Definition truthy (s : jsstring) : bool :=
  match s with [] => false | _ => true end.

(** [String.prototype.slice] and [Array.prototype.slice]: negative indices
    count from the end, both ends are clamped to the length. *)
Definition slice {A} (s : list A) (start finish : Z) : list A :=
  let n := len s in
  let from := if start <? 0 then Z.max (n + start) 0 else Z.min start n in
  let to := if finish <? 0 then Z.max (n + finish) 0 else Z.min finish n in
  take (Z.to_nat (to - from)) (drop (Z.to_nat from) s).

Fixpoint startsWith (sep s : jsstring) : bool :=
  match sep, s with
  | [], _ => true
  | _ :: _, [] => false
  | a :: sep', b :: s' => (a =? b) && startsWith sep' s'
  end.

(** [String.prototype.split] with a non-empty string separator: scan from
    the left; at a position where the separator matches, emit the piece
    collected so far and jump over the separator ([skip] counts the code
    units of the match still to be jumped over); the piece after the last
    match is always emitted. *)
Fixpoint splitGo (sep s piece : jsstring) (skip : nat) : list jsstring :=
  match s with
  | [] => [piece]
  | c :: s' =>
      match skip with
      | S k => splitGo sep s' piece k
      | O =>
          if startsWith sep s
          then piece :: splitGo sep s' [] (pred (length sep))
          else splitGo sep s' (piece ++ [c]) O
      end
  end.

Definition split (s sep : jsstring) : list jsstring := splitGo sep s [] O.

Definition isHighSurrogate (c : Z) : bool := (0xD800 <=? c) && (c <=? 0xDBFF).
Definition isLowSurrogate (c : Z) : bool := (0xDC00 <=? c) && (c <=? 0xDFFF).

(** [Array.from(string)] iterates by code point: a high surrogate that is
    followed by a low surrogate forms one element of length 2, every other
    code unit is an element of its own. *)
Fixpoint arrayFrom (s : jsstring) : list jsstring :=
  match s with
  | [] => []
  | c :: s' =>
      match s' with
      | d :: s'' =>
          if isHighSurrogate c && isLowSurrogate d
          then [c; d] :: arrayFrom s''
          else [c] :: arrayFrom s'
      | [] => [[c]]
      end
  end.

(** WhiteSpace and LineTerminator code points: what [trim] strips and what
    the regular expression class [\s] matches. *)
Definition isWhiteSpace (c : Z) : bool :=
  ((9 <=? c) && (c <=? 13)) || (c =? 32) || (c =? 0xA0) || (c =? 0x1680)
  || ((0x2000 <=? c) && (c <=? 0x200A)) || (c =? 0x2028) || (c =? 0x2029)
  || (c =? 0x202F) || (c =? 0x205F) || (c =? 0x3000) || (c =? 0xFEFF).

(** The class [\w] of a regular expression without the [u] and [i] flags. *)
Definition isWordChar (c : Z) : bool :=
  ((48 <=? c) && (c <=? 57)) || ((65 <=? c) && (c <=? 90))
  || (c =? 95) || ((97 <=? c) && (c <=? 122)).

Fixpoint trimStart (s : jsstring) : jsstring :=
  match s with
  | c :: s' => if isWhiteSpace c then trimStart s' else s
  | [] => []
  end.

Definition trimEnd (s : jsstring) : jsstring := rev (trimStart (rev s)).

Definition trim (s : jsstring) : jsstring := trimEnd (trimStart s).

(** [String.prototype.toLowerCase], given exactly on every code point whose
    lower-case form contains a word character: the ASCII capitals, U+0130
    (which becomes "i" followed by U+0307) and the Kelvin sign U+212A
    (which becomes "k").  Every other code unit is left as it is; its real
    lower-case form has neither word characters nor white space, as it has
    none itself, so the [replace] that follows in [tokenize] deletes
    either. *)
Definition lowerUnit (c : Z) : jsstring :=
  if (65 <=? c) && (c <=? 90) then [c + 32]
  else if c =? 0x130 then [105; 0x307]
  else if c =? 0x212A then [107]
  else [c].

Definition toLowerCase (s : jsstring) : jsstring := concat (map lowerUnit s).

(** [s.replace(/[^\w\s]/g, '')]. *)
Definition removePunctuation (s : jsstring) : jsstring :=
  List.filter (fun c => isWordChar c || isWhiteSpace c) s.

(** [s.split(/\s+/)]: pieces between maximal runs of white space; a run at
    either end of the string leaves an empty piece there.  [inRun] says
    that the previous code unit was white space. *)
Fixpoint splitWsGo (s piece : jsstring) (inRun : bool) : list jsstring :=
  match s with
  | [] => [piece]
  | c :: s' =>
      if isWhiteSpace c
      then (if inRun then splitWsGo s' piece true
            else piece :: splitWsGo s' [] true)
      else splitWsGo s' (piece ++ [c]) false
  end.

Definition splitWhitespace (s : jsstring) : list jsstring := splitWsGo s [] false.

(** A [Set] of strings is the list of its elements in insertion order,
    without repetition. *)
Definition has (s : list jsstring) (x : jsstring) : bool :=
  bool_decide (x ∈ s).

Definition add (s : list jsstring) (x : jsstring) : list jsstring :=
  if has s x then s else s ++ [x].

(** [new Set(array)]. *)
Definition newSet (l : list jsstring) : list jsstring := fold_left add l [].

(** Code units of an ASCII literal of the source. *)
Definition lit (s : string) : jsstring :=
  map (fun a => Z.of_N (Ascii.N_of_ascii a)) (String.list_ascii_of_string s).

Arguments lit s%_string_scope.

(** [String(n)] for an array index [n]. *)
Fixpoint digitsGo (fuel n : nat) (acc : jsstring) : jsstring :=
  match fuel with
  | O => acc
  | S fuel' =>
      let acc' := (48 + Z.of_nat (n mod 10)) :: acc in
      if (n <? 10)%nat then acc' else digitsGo fuel' (n / 10)%nat acc'
  end.

Definition numberToString (n : nat) : jsstring := digitsGo (S n) n [].

End JS.

(** ** src/utils/textProcessor.ts *)

Module TextProcessor.
Import JS.

(** [DocumentChunk] of types.ts. *)
Record Metadata := { startIndex : Z; endIndex : Z }.

Record DocumentChunk := {
  id : jsstring;
  sourceId : jsstring;
  content : jsstring;
  metadata : Metadata
}.

(** const separators = ["\n\n", "\n", " ", ""] *)
Definition separators : list jsstring := [[10; 10]; [10]; [32]; []].

Section Closure.

(** The parameters captured by the inner function [splitText]. *)
Variables chunkSize chunkOverlap : Z.

(** Lines 31-33: the loop
    [for (let i = 0; i < currentText.length; i += chunkSize - chunkOverlap)]
    entered with the current [i] and the chunks pushed so far. *)
Fixpoint hardSplitLoop (fuel : nat) (currentText : jsstring) (i : Z)
    (hardChunks : list jsstring) : option (list jsstring) :=
  match fuel with
  | O => None
  | S fuel' =>
      if i <? len currentText
      then hardSplitLoop fuel' currentText (i + (chunkSize - chunkOverlap))
             (hardChunks ++ [slice currentText i (i + chunkSize)])
      else Some hardChunks
  end.

(** Lines 47-68: greedy recombination of the splits; [goodSplits] and
    [currentChunk] are the two variables the loop updates, and the last two
    lines push the remainder. *)
Fixpoint recombineLoop (separator : jsstring) (splits goodSplits : list jsstring)
    (currentChunk : jsstring) : list jsstring :=
  match splits with
  | [] => if truthy currentChunk then goodSplits ++ [currentChunk] else goodSplits
  | split :: rest =>
      let potentialChunk :=
        if 0 <? len currentChunk then currentChunk ++ separator ++ split else split in
      if len potentialChunk <? chunkSize
      then recombineLoop separator rest goodSplits potentialChunk
      else recombineLoop separator rest
             (if truthy currentChunk then goodSplits ++ [currentChunk] else goodSplits)
             split
  end.

(** Lines 71-78: chunks that are still too big go to the next separator
    ([recur] is the recursive call), the others are kept. *)
Fixpoint processLoop (recur : jsstring -> option (list jsstring))
    (goodSplits processedSplits : list jsstring) : option (list jsstring) :=
  match goodSplits with
  | [] => Some processedSplits
  | chunk :: rest =>
      if chunkSize <? len chunk
      then match recur chunk with
           | Some pieces => processLoop recur rest (processedSplits ++ pieces)
           | None => None
           end
      else processLoop recur rest (processedSplits ++ [chunk])
  end.

(** Lines 22-81; [fallback] is the body of the branch
    [separatorIndex >= separators.length]. *)
Fixpoint splitTextWith (fallback : nat -> jsstring -> option (list jsstring))
    (fuel : nat) (currentText : jsstring) (separatorIndex : nat)
    : option (list jsstring) :=
  match fuel with
  | O => None
  | S fuel' =>
      if len currentText <=? chunkSize then Some [currentText]
      else if (length separators <=? separatorIndex)%nat
      then fallback fuel' currentText
      else
        let separator := nth separatorIndex separators [] in
        let splits :=
          if bool_decide (separator = [])
          then arrayFrom currentText
          else split currentText separator in
        let goodSplits := recombineLoop separator splits [] [] in
        processLoop (fun chunk => splitTextWith fallback fuel' chunk (S separatorIndex))
          goodSplits []
  end.

Definition hardSplit (fuel : nat) (currentText : jsstring) : option (list jsstring) :=
  hardSplitLoop fuel currentText 0 [].

Definition splitText : nat -> jsstring -> nat -> option (list jsstring) :=
  splitTextWith hardSplit.

(** The same function with the hard-split branch replaced by a trap: it
    returns a result exactly when that branch is not executed. *)
Definition splitTextNoFallback : nat -> jsstring -> nat -> option (list jsstring) :=
  splitTextWith (fun _ _ => None).

End Closure.

Definition recursiveCharacterSplit (fuel : nat) (text : jsstring)
    (chunkSize chunkOverlap : Z) : option (list jsstring) :=
  splitText chunkSize chunkOverlap fuel text 0.

(** [rawChunks.map((text, idx) => ...)] from index [idx] on. *)
Fixpoint mapChunks (docId : jsstring) (idx : nat) (rawChunks : list jsstring)
    : list DocumentChunk :=
  match rawChunks with
  | [] => []
  | text :: rest =>
      {| id := docId ++ lit "-chunk-" ++ numberToString idx;
         sourceId := docId;
         content := trim text;
         metadata := {| startIndex := Z.of_nat idx; endIndex := Z.of_nat idx + 1 |} |}
      :: mapChunks docId (S idx) rest
  end.

(** [recursiveCharacterSplit(content)] takes the defaults 500 and 50. *)
Definition createChunksFromDoc (fuel : nat) (docId content : jsstring)
    : option (list DocumentChunk) :=
  match recursiveCharacterSplit fuel content 500 50 with
  | Some rawChunks => Some (mapChunks docId 0 rawChunks)
  | None => None
  end.

End TextProcessor.

(** ** src/utils/search.ts *)

Module Search.
Import JS TextProcessor.

(** The objects [{ chunk, score }] built by [allChunks.map]. *)
Record ScoredChunk := { chunk : DocumentChunk; score : Q }.

(** Lines 28-35. *)
Definition tokenize (text : jsstring) : list jsstring :=
  newSet
    (List.filter (fun w => 2 <? len w)
       (splitWhitespace (removePunctuation (toLowerCase text)))).

(** Lines 38-43: [queryTokens.forEach] with the counter [overlap]. *)
Fixpoint countOverlap (chunkTokens queryTokens : list jsstring) (overlap : Z) : Z :=
  match queryTokens with
  | [] => overlap
  | qt :: rest =>
      countOverlap chunkTokens rest (if has chunkTokens qt then overlap + 1 else overlap)
  end.

(** [x || d] on numbers that are integers: [0] is the falsy one. *)
Definition orElse (x d : Z) : Z := if x =? 0 then d else x.

(** Lines 37-46. *)
Definition calculateScore (queryTokens chunkTokens : list jsstring) : Q :=
  let overlap := countOverlap chunkTokens queryTokens 0 in
  (inject_Z overlap / inject_Z (orElse (len queryTokens + len chunkTokens - overlap) 1))%Q.

(** The comparator [(a, b) => b.score - a.score]. *)
Definition compareFn (a b : ScoredChunk) : Q := (score b - score a)%Q.

(** [Array.prototype.sort] is a stable sort (ECMAScript 2019); for a
    comparator that is consistent, as a difference of numbers is, its result
    is the one stable sorted arrangement, computed here by insertion: an
    element moves right past exactly those elements the comparator puts
    strictly before it. *)
Section Sort.
Context {A : Type} (cmp : A -> A -> Q).

Fixpoint insertSorted (x : A) (sorted : list A) : list A :=
  match sorted with
  | [] => [x]
  | y :: rest =>
      if Qle_bool (cmp x y) 0 then x :: sorted else y :: insertSorted x rest
  end.

Fixpoint sort (l : list A) : list A :=
  match l with
  | [] => []
  | x :: rest => insertSorted x (sort rest)
  end.

End Sort.

(** Lines 7-26. *)
Definition retrieveRelevantChunks (query : jsstring) (allChunks : list DocumentChunk)
    (topK : Z) : list DocumentChunk :=
  if len allChunks =? 0 then []
  else
    let queryTokens := tokenize query in
    let scoredChunks :=
      map (fun c =>
             {| chunk := c;
                score := calculateScore queryTokens (tokenize (content c)) |})
          allChunks in
    let sorted := sort compareFn scoredChunks in
    map chunk (slice sorted 0 topK).

(** The score [retrieveRelevantChunks] gives to a chunk. *)
Definition scoreOf (query : jsstring) (c : DocumentChunk) : Q :=
  calculateScore (tokenize query) (tokenize (content c)).

(** *** The scoring rule in the specification's words

    The token set of a text as a finite set, and the Jaccard-style quotient
    of two such sets with the divisor 1 in place of 0; [calculateScore] on
    the insertion-ordered [Set]s of the source is compared with it below. *)
Definition tokenSet (text : jsstring) : gset jsstring :=
  list_to_set
    (List.filter (fun w => 2 <? len w)
       (splitWhitespace (removePunctuation (toLowerCase text)))).

Definition jaccard (X Y : gset jsstring) : Q :=
  let common := Z.of_nat (size (X ∩ Y)) in
  let denominator := Z.of_nat (size X) + Z.of_nat (size Y) - common in
  (inject_Z common / inject_Z (if denominator =? 0 then 1 else denominator))%Q.

(** *** The quotient as JavaScript computes it

    The division of two numbers that are integers is not a finite number
    when the divisor is 0: it is NaN for 0 / 0 and an infinity otherwise.
    [calculateScoreNumber] is lines 37-46 with that division; a result
    [Finite q] is what [calculateScore] reads as the rational [q]. *)
Inductive number :=
  | Finite (q : Q)
  | PlusInfinity
  | MinusInfinity
  | NaN.

Definition divide (x y : Z) : number :=
  if y =? 0
  then (if x =? 0 then NaN else if 0 <? x then PlusInfinity else MinusInfinity)
  else Finite (inject_Z x / inject_Z y)%Q.

Definition calculateScoreNumber (queryTokens chunkTokens : list jsstring) : number :=
  let overlap := countOverlap chunkTokens queryTokens 0 in
  divide overlap (orElse (len queryTokens + len chunkTokens - overlap) 1).

End Search.

(** ** src/components/DocManager.tsx, src/App.tsx, src/services/gemini.ts

    The parts of the callers that compute on documents and chunks: the two
    updates of the document collection, the retrieval step of the pipeline
    and the context block of the prompt.  Rendering, form fields, timers
    and the calls to the hosted model are left out. *)

Module DocManager.
Import JS TextProcessor.

(** [KnowledgeDoc] of types.ts; [uploadDate] is the time value of the
    [Date]. *)
Record KnowledgeDoc := {
  id : jsstring;
  title : jsstring;
  content : jsstring;
  chunks : list DocumentChunk;
  uploadDate : Z
}.

(** Lines 16-34 of DocManager.tsx, as a function of the collection: the
    guard, the identifier [doc-${Date.now()}] ([now] is the value read from
    the clock, [date] the one of [new Date()]), the chunks, and the update
    [setDocs(prev => [...prev, newDoc])]. *)
Definition handleAddDoc (fuel now : nat) (date : Z) (newTitle newContent : jsstring)
    (docs : list KnowledgeDoc) : option (list KnowledgeDoc) :=
  if negb (truthy newTitle) || negb (truthy newContent) then Some docs
  else
    let docId := lit "doc-" ++ numberToString now in
    match createChunksFromDoc fuel docId newContent with
    | Some chunks =>
        Some (docs ++ [ {| id := docId; title := newTitle; content := newContent;
                           chunks := chunks; uploadDate := date |} ])
    | None => None
    end.

(** Lines 36-38: [setDocs(prev => prev.filter(d => d.id !== id))]. *)
Definition deleteDoc (id' : jsstring) (docs : list KnowledgeDoc) : list KnowledgeDoc :=
  List.filter (fun d => negb (bool_decide (id d = id'))) docs.

End DocManager.

Module App.
Import JS TextProcessor Search.

(** Lines 58-59 of App.tsx: flatten the chunks of all documents and
    retrieve with [topK = 3]. *)
Definition retrievalStep (searchQuery : jsstring) (docs : list DocManager.KnowledgeDoc)
    : list DocumentChunk :=
  let allChunks := concat (map DocManager.chunks docs) in
  retrieveRelevantChunks searchQuery allChunks 3.

End App.

Module Gemini.
Import JS TextProcessor.

(** [Array.prototype.join] on an array of strings. *)
Fixpoint join (l : list jsstring) (sep : jsstring) : jsstring :=
  match l with
  | [] => []
  | x :: rest =>
      match rest with
      | [] => x
      | _ :: _ => x ++ sep ++ join rest sep
      end
  end.

(** Line 57 of gemini.ts:
    [chunks.map(c => `[Source ID: ${c.sourceId}]: ${c.content}`).join("\n\n")]. *)
Definition contextText (chunks : list DocumentChunk) : jsstring :=
  join (map (fun c => lit "[Source ID: " ++ sourceId c ++ lit "]: " ++ content c) chunks)
       [10; 10].

End Gemini.

(** ** Vocabulary of the properties *)

Module Props.
Import JS TextProcessor Search.

(** The contract of [split] in the specification. *)
Definition validConfiguration (chunkSize chunkOverlap : Z) : Prop :=
  0 < chunkSize /\ 0 <= chunkOverlap < chunkSize.

Definition fits (chunkSize : Z) (c : jsstring) : Prop := len c <= chunkSize.

(** A high surrogate immediately followed by a low surrogate: a code point
    outside the Basic Multilingual Plane. *)
Fixpoint hasSurrogatePair (s : jsstring) : bool :=
  match s with
  | [] => false
  | c :: s' =>
      match s' with
      | [] => false
      | d :: _ => (isHighSurrogate c && isLowSurrogate d) || hasSurrogatePair s'
      end
  end.

(** Texts on which the code-point level cannot produce an element longer
    than [chunkSize]: any text when [chunkSize >= 2], texts without
    surrogate pairs when [chunkSize = 1]. *)
Definition codePointsFit (chunkSize : Z) (t : jsstring) : Prop :=
  2 <= chunkSize \/ hasSurrogatePair t = false.

(** The code units the non-empty separators are made of: line feed and
    space. *)
Definition isSeparatorUnit (c : Z) : bool := (c =? 10) || (c =? 32).

Definition withoutSeparators (s : jsstring) : jsstring :=
  List.filter (fun c => negb (isSeparatorUnit c)) s.

(** The chunks in order, with the given separators put back at the chunk
    boundaries, one per boundary. *)
Fixpoint rejoin (chunks seps : list jsstring) : jsstring :=
  match chunks with
  | [] => []
  | c :: rest =>
      match rest with
      | [] => c
      | _ :: _ =>
          match seps with
          | sp :: seps' => c ++ sp ++ rejoin rest seps'
          | [] => c ++ rejoin rest []
          end
      end
  end.

Definition occurrences (c : Z) (s : jsstring) : nat :=
  length (List.filter (Z.eqb c) s).

(** A contiguous part of a text. *)
Definition isSubstring (c t : jsstring) : Prop :=
  exists before after, t = before ++ c ++ after.

(** The number a string of decimal digits stands for. *)
Definition digitsValue (s : jsstring) : nat :=
  fold_left (fun acc d => (10 * acc + Z.to_nat (d - 48))%nat) s 0%nat.

(** Lower-case ASCII letters, digits and the underscore. *)
Definition isLowerWordChar (c : Z) : bool :=
  ((48 <=? c) && (c <=? 57)) || (c =? 95) || ((97 <=? c) && (c <=? 122)).

(** Every chunk of a document names that document as its source. *)
Definition chunksCiteOwner (docs : list DocManager.KnowledgeDoc) : Prop :=
  Forall (fun d => Forall (fun c => sourceId c = DocManager.id d) (DocManager.chunks d))
         docs.

(** The chunk of a one-line document "doc-17". *)
Definition restartChunks : list DocumentChunk :=
  [ {| id := lit "doc-17-chunk-0"; sourceId := lit "doc-17";
       content := lit "kubectl rollout restart";
       metadata := {| startIndex := 0; endIndex := 1 |} |} ].

(** A text is covered by chunks when it is made of the chunks, in order,
    with runs of line feeds and spaces (possibly empty) before, between and
    after them: every code unit of the text lies in a chunk or in such a
    run. *)
Inductive Covers : list jsstring -> jsstring -> Prop :=
  | Covers_nil (gap : jsstring) :
      Forall (fun c => isSeparatorUnit c = true) gap -> Covers [] gap
  | Covers_cons (gap chunk : jsstring) (chunks : list jsstring) (rest : jsstring) :
      Forall (fun c => isSeparatorUnit c = true) gap ->
      Covers chunks rest ->
      Covers (chunk :: chunks) (gap ++ chunk ++ rest).

(** The two chunks of Scenario B of the specification. *)
Definition scenarioB : list DocumentChunk :=
  [ {| id := lit "c1"; sourceId := lit "doc-1";
       content := lit "MySQL connection pooling and timeouts";
       metadata := {| startIndex := 0; endIndex := 1 |} |};
    {| id := lit "c2"; sourceId := lit "doc-1";
       content := lit "Unrelated deployment rollback guide";
       metadata := {| startIndex := 1; endIndex := 2 |} |} ].

(** A collection of two documents: "doc-1" with the chunks of Scenario B,
    "doc-2" with one chunk. *)
Definition knowledgeBase : list DocManager.KnowledgeDoc :=
  [ {| DocManager.id := lit "doc-1"; DocManager.title := lit "Scenario B";
       DocManager.content :=
         lit "MySQL connection pooling and timeouts Unrelated deployment rollback guide";
       DocManager.chunks := scenarioB; DocManager.uploadDate := 0 |};
    {| DocManager.id := lit "doc-2"; DocManager.title := lit "Ports";
       DocManager.content := lit "connection refused on port 8080";
       DocManager.chunks :=
         [ {| id := lit "doc-2-chunk-0"; sourceId := lit "doc-2";
              content := lit "connection refused on port 8080";
              metadata := {| startIndex := 0; endIndex := 1 |} |} ];
       DocManager.uploadDate := 1 |} ].

End Props.

(** * Properties *)

Import JS TextProcessor Search Props.

(** ** The splitter: size bound *)

Section SplitterBound.
Variables chunkSize chunkOverlap : Z.

Local Abbreviation fits := (Props.fits chunkSize).

Lemma slice_window_length (s : jsstring) (i : Z) :
  0 <= i -> 0 <= chunkSize -> len (slice s i (i + chunkSize)) <= chunkSize.
Proof.
  intros Hi Hc. unfold slice, len.
  destruct (Z.ltb_spec i 0); [lia|].
  destruct (Z.ltb_spec (i + chunkSize) 0); [lia|].
  rewrite length_take. lia.
Qed.

Lemma hardSplitLoop_fits fuel : forall currentText i hardChunks chunks,
  0 <= chunkOverlap < chunkSize -> 0 <= i ->
  Forall fits hardChunks ->
  hardSplitLoop chunkSize chunkOverlap fuel currentText i hardChunks = Some chunks ->
  Forall fits chunks.
Proof.
  induction fuel as [|fuel IH]; intros t i acc chunks Hv Hi Hacc; simpl; [discriminate|].
  destruct (i <? len t).
  - apply IH; [done|lia|].
    apply Forall_app; split; [done|].
    constructor; [|constructor]. apply slice_window_length; lia.
  - intros [= <-]. done.
Qed.

Lemma processLoop_fits recur : forall goodSplits processedSplits chunks,
  (forall c r, recur c = Some r -> Forall fits r) ->
  Forall fits processedSplits ->
  processLoop chunkSize recur goodSplits processedSplits = Some chunks ->
  Forall fits chunks.
Proof.
  induction goodSplits as [|c rest IH]; intros acc chunks Hrec Hacc; simpl.
  - intros [= <-]. done.
  - destruct (Z.ltb_spec chunkSize (len c)).
    + destruct (recur c) as [r|] eqn:Hr; [|discriminate].
      apply IH; [done|]. apply Forall_app; split; [done|]. by eapply Hrec.
    + apply IH; [done|]. apply Forall_app; split; [done|].
      constructor; [|constructor]. unfold fits. lia.
Qed.

Lemma splitTextWith_S fallback fuel currentText separatorIndex :
  splitTextWith chunkSize fallback (S fuel) currentText separatorIndex =
  if len currentText <=? chunkSize then Some [currentText]
  else if (length separators <=? separatorIndex)%nat
  then fallback fuel currentText
  else
    let separator := nth separatorIndex separators [] in
    processLoop chunkSize
      (fun chunk => splitTextWith chunkSize fallback fuel chunk (S separatorIndex))
      (recombineLoop chunkSize separator
         (if bool_decide (separator = [])
          then arrayFrom currentText else split currentText separator) [] [])
      [].
Proof. reflexivity. Qed.

Lemma splitTextWith_fits fallback fuel : forall currentText separatorIndex chunks,
  (forall f t r, fallback f t = Some r -> Forall fits r) ->
  splitTextWith chunkSize fallback fuel currentText separatorIndex = Some chunks ->
  Forall fits chunks.
Proof.
  induction fuel as [|fuel IH]; intros t idx chunks Hfb; [discriminate|].
  rewrite splitTextWith_S.
  destruct (Z.leb_spec (len t) chunkSize).
  - intros [= <-]. constructor; [|constructor]. done.
  - destruct (length separators <=? idx)%nat.
    + apply Hfb.
    + apply processLoop_fits; [|constructor].
      intros c r Hr. by eapply IH.
Qed.

End SplitterBound.

(** ** The splitter: fuel, termination, and when the hard split runs *)

Section SplitterTermination.
Variable chunkSize : Z.

Lemma hardSplitLoop_terminates chunkOverlap fuel : forall currentText i hardChunks,
  1 <= chunkSize - chunkOverlap -> 0 <= i ->
  (Z.to_nat (len currentText - i) < fuel)%nat ->
  is_Some (hardSplitLoop chunkSize chunkOverlap fuel currentText i hardChunks).
Proof.
  induction fuel as [|fuel IH]; intros t i acc Hstep Hi Hfuel; simpl; [lia|].
  destruct (Z.ltb_spec i (len t)); [|by eexists].
  apply IH; lia.
Qed.

Lemma hardSplitLoop_mono chunkOverlap fuel : forall fuel' currentText i hardChunks r,
  hardSplitLoop chunkSize chunkOverlap fuel currentText i hardChunks = Some r ->
  (fuel <= fuel')%nat ->
  hardSplitLoop chunkSize chunkOverlap fuel' currentText i hardChunks = Some r.
Proof.
  induction fuel as [|fuel IH]; intros fuel' t i acc r; simpl; [discriminate|].
  intros H Hle. destruct fuel' as [|fuel']; [lia|]. simpl.
  destruct (i <? len t); [|done]. apply IH; [done|lia].
Qed.

(** A hard split that steps by 0 or backwards never leaves its loop. *)
Lemma hardSplitLoop_diverges chunkOverlap fuel : forall currentText i hardChunks,
  chunkSize - chunkOverlap <= 0 -> i < len currentText ->
  hardSplitLoop chunkSize chunkOverlap fuel currentText i hardChunks = None.
Proof.
  induction fuel as [|fuel IH]; intros t i acc Hstep Hi; simpl; [done|].
  destruct (Z.ltb_spec i (len t)); [|lia]. apply IH; lia.
Qed.

Lemma processLoop_mono (recur recur' : jsstring -> option (list jsstring)) :
  forall goodSplits processedSplits r,
  (forall c x, c ∈ goodSplits -> recur c = Some x -> recur' c = Some x) ->
  processLoop chunkSize recur goodSplits processedSplits = Some r ->
  processLoop chunkSize recur' goodSplits processedSplits = Some r.
Proof.
  induction goodSplits as [|c rest IH]; intros acc r Hrec; simpl; [done|].
  destruct (chunkSize <? len c).
  - destruct (recur c) as [x|] eqn:Hx; [|discriminate].
    rewrite (Hrec c x); [|left|done].
    apply IH. intros c' x' Hin. apply Hrec. by right.
  - apply IH. intros c' x' Hin. apply Hrec. by right.
Qed.

Lemma splitTextWith_mono fallback fuel : forall fuel' currentText separatorIndex r,
  (forall f f' t x, fallback f t = Some x -> (f <= f')%nat -> fallback f' t = Some x) ->
  splitTextWith chunkSize fallback fuel currentText separatorIndex = Some r ->
  (fuel <= fuel')%nat ->
  splitTextWith chunkSize fallback fuel' currentText separatorIndex = Some r.
Proof.
  induction fuel as [|fuel IH]; intros fuel' t idx r Hfb; [discriminate|].
  intros H Hle. destruct fuel' as [|fuel']; [lia|].
  rewrite splitTextWith_S in *.
  destruct (len t <=? chunkSize); [done|].
  destruct (length separators <=? idx)%nat.
  - eapply Hfb; [done|lia].
  - cbv zeta in *. eapply processLoop_mono; [|done].
    intros c x _ Hx. simpl. eapply IH; [done|done|lia].
Qed.

Lemma splitText_mono chunkOverlap fuel fuel' currentText separatorIndex r :
  splitText chunkSize chunkOverlap fuel currentText separatorIndex = Some r ->
  (fuel <= fuel')%nat ->
  splitText chunkSize chunkOverlap fuel' currentText separatorIndex = Some r.
Proof.
  apply splitTextWith_mono. intros f f' t x. apply hardSplitLoop_mono.
Qed.

(** What the greedy loop pushes: a chunk that was grown stays strictly
    below [chunkSize]; any other chunk is one of the splits, alone. *)
Lemma recombineLoop_chunks (P : jsstring -> Prop) separator :
  forall splits goodSplits currentChunk,
  Forall P splits ->
  Forall (fun c => len c < chunkSize \/ P c) goodSplits ->
  (currentChunk = [] \/ len currentChunk < chunkSize \/ P currentChunk) ->
  Forall (fun c => len c < chunkSize \/ P c)
    (recombineLoop chunkSize separator splits goodSplits currentChunk).
Proof.
  induction splits as [|sp rest IH]; intros good cur Hsp Hgood Hcur; simpl.
  - destruct cur as [|u cur]; simpl; [done|].
    apply Forall_app; split; [done|].
    constructor; [|constructor]. destruct Hcur as [?|?]; [done|tauto].
  - inversion Hsp as [|? ? Hp Hrest]; subst.
    match goal with |- context [len ?pc <? chunkSize] =>
      destruct (Z.ltb_spec (len pc) chunkSize) end.
    + apply IH; [done|done|]. right; left. done.
    + apply IH; [done| |by right; right].
      destruct cur as [|u cur]; simpl; [done|].
      apply Forall_app; split; [done|].
      constructor; [|constructor]. destruct Hcur as [?|?]; [done|tauto].
Qed.

Lemma recombineLoop_truthy separator : forall splits goodSplits currentChunk,
  Forall (fun c => c <> []) goodSplits ->
  Forall (fun c => c <> []) (recombineLoop chunkSize separator splits goodSplits currentChunk).
Proof.
  induction splits as [|sp rest IH]; intros good cur Hgood; simpl.
  - destruct cur; simpl; [done|]. apply Forall_app; split; [done|]. by repeat constructor.
  - match goal with |- context [len ?pc <? chunkSize] =>
      destruct (len pc <? chunkSize) end.
    + by apply IH.
    + apply IH. destruct cur; simpl; [done|].
      apply Forall_app; split; [done|]. by repeat constructor.
Qed.

End SplitterTermination.

(** ** Code points and surrogate pairs *)

Lemma list_pair_ind {A} (P : list A -> Prop) :
  P [] -> (forall c, P [c]) ->
  (forall c d s, P s -> P (d :: s) -> P (c :: d :: s)) ->
  forall s, P s.
Proof.
  intros Hnil Hone Hstep s.
  assert (P s /\ forall c, P (c :: s)) as [H _]; [|exact H].
  induction s as [|d s [IH1 IH2]]; split; auto.
Qed.

Lemma arrayFrom_concat (s : jsstring) : concat (arrayFrom s) = s.
Proof.
  induction s as [|c|c d s IH1 IH2] using list_pair_ind; [done|done|].
  change (arrayFrom (c :: d :: s)) with
    (if isHighSurrogate c && isLowSurrogate d
     then [c; d] :: arrayFrom s else [c] :: arrayFrom (d :: s)).
  destruct (isHighSurrogate c && isLowSurrogate d); simpl.
  - by rewrite IH1.
  - change (match s with
            | [] => [[d]]
            | d0 :: s'' =>
                if isHighSurrogate d && isLowSurrogate d0
                then [d; d0] :: arrayFrom s'' else [d] :: arrayFrom s
            end) with (arrayFrom (d :: s)).
    by rewrite IH2.
Qed.

Lemma arrayFrom_short (s : jsstring) :
  Forall (fun e => (1 <= length e <= 2)%nat) (arrayFrom s).
Proof.
  induction s as [|c|c d s IH1 IH2] using list_pair_ind.
  - constructor.
  - repeat constructor.
  - change (arrayFrom (c :: d :: s)) with
      (if isHighSurrogate c && isLowSurrogate d
       then [c; d] :: arrayFrom s else [c] :: arrayFrom (d :: s)).
    destruct (isHighSurrogate c && isLowSurrogate d); constructor; simpl; auto; lia.
Qed.

Lemma arrayFrom_bmp (s : jsstring) :
  hasSurrogatePair s = false -> Forall (fun e => length e = 1%nat) (arrayFrom s).
Proof.
  induction s as [|c|c d s IH1 IH2] using list_pair_ind; intros H.
  - constructor.
  - repeat constructor.
  - change (hasSurrogatePair (c :: d :: s)) with
      ((isHighSurrogate c && isLowSurrogate d) || hasSurrogatePair (d :: s)) in H.
    apply orb_false_iff in H as [Hcd Hrest].
    change (arrayFrom (c :: d :: s)) with
      (if isHighSurrogate c && isLowSurrogate d
       then [c; d] :: arrayFrom s else [c] :: arrayFrom (d :: s)).
    rewrite Hcd. constructor; auto.
Qed.

Lemma hasSurrogatePair_tail c (s : jsstring) :
  hasSurrogatePair (c :: s) = false -> hasSurrogatePair s = false.
Proof.
  destruct s as [|d s]; [done|].
  change (hasSurrogatePair (c :: d :: s)) with
    ((isHighSurrogate c && isLowSurrogate d) || hasSurrogatePair (d :: s)).
  intros H. by apply orb_false_iff in H as [_ H].
Qed.

Lemma hasSurrogatePair_app_r (a b : jsstring) :
  hasSurrogatePair (a ++ b) = false -> hasSurrogatePair b = false.
Proof.
  induction a as [|c a IH]; [done|]. intros H. apply IH.
  by apply hasSurrogatePair_tail in H.
Qed.

Lemma hasSurrogatePair_app_l (a b : jsstring) :
  hasSurrogatePair (a ++ b) = false -> hasSurrogatePair a = false.
Proof.
  induction a as [|c a IH]; [done|].
  destruct a as [|d a]; [done|].
  change (hasSurrogatePair ((c :: d :: a) ++ b)) with
    ((isHighSurrogate c && isLowSurrogate d) || hasSurrogatePair ((d :: a) ++ b)).
  change (hasSurrogatePair (c :: d :: a)) with
    ((isHighSurrogate c && isLowSurrogate d) || hasSurrogatePair (d :: a)).
  intros H. apply orb_false_iff in H as [H1 H2].
  rewrite H1. simpl. by apply IH.
Qed.

(** The pieces of [split] are stretches of the text, so they contain a
    surrogate pair only if the text does. *)
Lemma splitGo_bmp (sep : jsstring) : forall s,
  (forall piece, hasSurrogatePair (piece ++ s) = false ->
     Forall (fun p => hasSurrogatePair p = false) (splitGo sep s piece 0)) /\
  (forall k, hasSurrogatePair s = false ->
     Forall (fun p => hasSurrogatePair p = false) (splitGo sep s [] k)).
Proof.
  induction s as [|c s [IH1 IH2]].
  - split; intros; simpl; repeat constructor. by rewrite app_nil_r in *.
  - assert (forall piece, hasSurrogatePair (piece ++ c :: s) = false ->
       Forall (fun p => hasSurrogatePair p = false) (splitGo sep (c :: s) piece 0)) as H0.
    { intros piece H. simpl. destruct (startsWith sep (c :: s)).
      - constructor; [by apply hasSurrogatePair_app_l in H|].
        apply IH2. apply hasSurrogatePair_app_r in H.
        by apply hasSurrogatePair_tail in H.
      - apply IH1. by rewrite <- app_assoc. }
    split; [exact H0|].
    intros [|k] H; [by apply (H0 [])|].
    simpl. apply IH2. by apply hasSurrogatePair_tail in H.
Qed.

Lemma split_bmp (s sep : jsstring) :
  hasSurrogatePair s = false ->
  Forall (fun p => hasSurrogatePair p = false) (split s sep).
Proof. intros H. by apply (proj1 (splitGo_bmp sep s) []). Qed.

(** ** The splitter: reaching the hard split *)

Section HardSplitReach.
Variable chunkSize : Z.
Hypothesis chunkSize_pos : 1 <= chunkSize.

Local Abbreviation codePointsFit := (Props.codePointsFit chunkSize).

Lemma processLoop_ext (recur recur' : jsstring -> option (list jsstring)) :
  forall goodSplits processedSplits,
  (forall c, c ∈ goodSplits -> chunkSize < len c -> recur c = recur' c) ->
  processLoop chunkSize recur goodSplits processedSplits =
  processLoop chunkSize recur' goodSplits processedSplits.
Proof.
  induction goodSplits as [|c rest IH]; intros acc Hrec; simpl; [done|].
  destruct (Z.ltb_spec chunkSize (len c)).
  - rewrite <- (Hrec c); [|left|done].
    destruct (recur c); [|done]. apply IH. intros c' Hin. apply Hrec. by right.
  - apply IH. intros c' Hin. apply Hrec. by right.
Qed.

Lemma processLoop_terminates (recur : jsstring -> option (list jsstring)) :
  forall goodSplits processedSplits,
  (forall c, c ∈ goodSplits -> chunkSize < len c -> is_Some (recur c)) ->
  is_Some (processLoop chunkSize recur goodSplits processedSplits).
Proof.
  induction goodSplits as [|c rest IH]; intros acc Hrec; simpl; [by eexists|].
  destruct (Z.ltb_spec chunkSize (len c)).
  - destruct (Hrec c) as [x ->]; [left|done|].
    apply IH. intros c' Hin. apply Hrec. by right.
  - apply IH. intros c' Hin. apply Hrec. by right.
Qed.

Lemma codePoint_level_fits (t : jsstring) :
  codePointsFit t ->
  Forall (fun c => len c < chunkSize \/ len c <= chunkSize)
    (recombineLoop chunkSize [] (arrayFrom t) [] []).
Proof.
  intros Hok. apply recombineLoop_chunks; [|constructor|by left].
  destruct Hok as [Hcs|Hbmp].
  - eapply Forall_impl; [apply arrayFrom_short|].
    intros e He. unfold len. simpl in He. lia.
  - eapply Forall_impl; [by apply arrayFrom_bmp|].
    intros e He. unfold len. simpl in He. lia.
Qed.

Lemma separator_level_chunks (t separator : jsstring) :
  codePointsFit t ->
  Forall (fun c => len c < chunkSize \/ codePointsFit c)
    (recombineLoop chunkSize separator (split t separator) [] []).
Proof.
  intros Hok. apply recombineLoop_chunks; [|constructor|by left].
  destruct Hok as [Hcs|Hbmp].
  - apply Forall_forall. intros ? _. by left.
  - eapply Forall_impl; [by apply split_bmp|]. intros p Hp. by right.
Qed.

(** On such texts the result does not depend on what the hard-split branch
    would do: the branch is not executed. *)
Lemma splitTextWith_fallback_irrelevant fallback fallback' fuel :
  forall currentText separatorIndex,
  (separatorIndex <= 3)%nat -> codePointsFit currentText ->
  splitTextWith chunkSize fallback fuel currentText separatorIndex =
  splitTextWith chunkSize fallback' fuel currentText separatorIndex.
Proof.
  induction fuel as [|fuel IH]; intros t idx Hidx Hok; [done|].
  rewrite !splitTextWith_S.
  destruct (len t <=? chunkSize); [done|].
  destruct (Nat.leb_spec (length separators) idx) as [Hge|_]; [simpl in Hge; lia|].
  cbv zeta. apply processLoop_ext. intros c Hin Hbig.
  destruct (decide (idx = 3%nat)) as [->|Hne].
  - exfalso. simpl in Hin.
    pose proof (codePoint_level_fits t Hok) as Hall.
    rewrite Forall_forall in Hall. specialize (Hall c Hin). lia.
  - apply IH; [lia|].
    assert (bool_decide (nth idx separators [] = []) = false) as Hsep.
    { destruct idx as [|[|[|idx]]]; try done. lia. }
    rewrite Hsep in Hin.
    pose proof (separator_level_chunks t (nth idx separators []) Hok) as Hall.
    rewrite Forall_forall in Hall. specialize (Hall c Hin).
    destruct Hall as [?|?]; [lia|done].
Qed.

(** With a step of at least 1, eight units of fuel are enough for every
    text: four separator levels, the call that reaches the hard split, and
    a hard split of at most two code units. *)
Lemma splitText_terminates_at chunkOverlap fuel : forall currentText separatorIndex,
  1 <= chunkSize - chunkOverlap ->
  ((separatorIndex <= 3 /\ 8 <= fuel + separatorIndex)%nat \/
   (separatorIndex = 4 /\ length currentText <= 2 /\ 4 <= fuel)%nat) ->
  is_Some (splitText chunkSize chunkOverlap fuel currentText separatorIndex).
Proof.
  unfold splitText.
  induction fuel as [|fuel IH]; intros t idx Hstep Hcase; [lia|].
  rewrite splitTextWith_S.
  destruct (len t <=? chunkSize); [by eexists|].
  destruct Hcase as [[Hidx Hfuel]|(-> & Hlen & Hfuel)].
  - destruct (Nat.leb_spec (length separators) idx) as [Hge|_]; [simpl in Hge; lia|].
    cbv zeta. apply processLoop_terminates. intros c Hin Hbig.
    apply IH; [done|].
    destruct (decide (idx = 3%nat)) as [->|Hne]; [right|left; lia].
    split; [done|]. split; [|lia].
    simpl in Hin.
    assert (Forall (fun c => len c < chunkSize \/ (length c <= 2)%nat)
              (recombineLoop chunkSize [] (arrayFrom t) [] [])) as Hall.
    { apply recombineLoop_chunks; [|constructor|by left].
      eapply Forall_impl; [apply arrayFrom_short|]. simpl. intros; lia. }
    rewrite Forall_forall in Hall. specialize (Hall c Hin).
    destruct Hall as [?|?]; [lia|done].
  - simpl. apply hardSplitLoop_terminates; [done|lia|].
    unfold len. lia.
Qed.

Lemma recursiveCharacterSplit_terminates chunkOverlap fuel text :
  1 <= chunkSize - chunkOverlap -> (8 <= fuel)%nat ->
  is_Some (recursiveCharacterSplit fuel text chunkSize chunkOverlap).
Proof.
  intros Hstep Hfuel. apply splitText_terminates_at; [done|]. left. lia.
Qed.

(** The result is the same for every amount of fuel that gives one. *)
Lemma recursiveCharacterSplit_fuel chunkOverlap fuel fuel' text r r' :
  recursiveCharacterSplit fuel text chunkSize chunkOverlap = Some r ->
  recursiveCharacterSplit fuel' text chunkSize chunkOverlap = Some r' ->
  r = r'.
Proof.
  unfold recursiveCharacterSplit. intros H H'.
  apply (splitText_mono _ _ _ (Nat.max fuel fuel')) in H; [|lia].
  apply (splitText_mono _ _ _ (Nat.max fuel fuel')) in H'; [|lia].
  congruence.
Qed.

End HardSplitReach.

(** ** The splitter: what is kept of the text *)

Lemma withoutSeparators_app (a b : jsstring) :
  withoutSeparators (a ++ b) = withoutSeparators a ++ withoutSeparators b.
Proof. apply List.filter_app. Qed.

Lemma withoutSeparators_concat_app (a b : list jsstring) :
  withoutSeparators (concat (a ++ b)) =
  withoutSeparators (concat a) ++ withoutSeparators (concat b).
Proof. by rewrite concat_app, withoutSeparators_app. Qed.

Lemma withoutSeparators_cons_nil c (s : jsstring) :
  withoutSeparators (c :: s) = [] ->
  withoutSeparators [c] = [] /\ withoutSeparators s = [].
Proof.
  unfold withoutSeparators. simpl.
  destruct (negb (isSeparatorUnit c)); [discriminate|done].
Qed.

Lemma startsWith_prefix (sep : jsstring) : forall s,
  startsWith sep s = true -> take (length sep) s = sep.
Proof.
  induction sep as [|a sep IH]; intros [|b s]; simpl; try done.
  intros H. apply andb_true_iff in H as [Hab Hrest].
  apply Z.eqb_eq in Hab as ->. by rewrite IH.
Qed.

Lemma withoutSeparators_cons c (s : jsstring) :
  withoutSeparators (c :: s) = withoutSeparators [c] ++ withoutSeparators s.
Proof. apply (withoutSeparators_app [c] s). Qed.

Lemma splitGo_withoutSeparators (sep : jsstring) :
  sep <> [] -> withoutSeparators sep = [] ->
  forall s piece skip,
  withoutSeparators (take skip s) = [] ->
  withoutSeparators (concat (splitGo sep s piece skip)) =
  withoutSeparators piece ++ withoutSeparators s.
Proof.
  intros Hne Hsep.
  induction s as [|c s IH]; intros piece skip Hskip.
  - simpl. by rewrite !app_nil_r.
  - rewrite (withoutSeparators_cons c s).
    destruct skip as [|k]; cbn [splitGo].
    + destruct (startsWith sep (c :: s)) eqn:Hsw.
      * destruct sep as [|a sep]; [done|].
        pose proof (startsWith_prefix _ _ Hsw) as Hpre.
        cbn [length take] in Hpre. injection Hpre as Hca Hpre. subst a.
        apply withoutSeparators_cons_nil in Hsep as [Hc Hsep'].
        cbn [concat length pred]. rewrite withoutSeparators_app.
        rewrite IH; [|by rewrite Hpre]. by rewrite Hc.
      * rewrite IH; [|done].
        rewrite !withoutSeparators_app. by rewrite <- app_assoc.
    + cbn [take] in Hskip.
      apply withoutSeparators_cons_nil in Hskip as [Hc Hk].
      rewrite IH; [|done]. by rewrite Hc.
Qed.

Lemma split_withoutSeparators (s sep : jsstring) :
  sep <> [] -> withoutSeparators sep = [] ->
  withoutSeparators (concat (split s sep)) = withoutSeparators s.
Proof.
  intros Hne Hsep. unfold split.
  by rewrite splitGo_withoutSeparators.
Qed.

Lemma rejoin_withoutSeparators : forall chunks seps,
  Forall (fun sp => withoutSeparators sp = []) seps ->
  withoutSeparators (rejoin chunks seps) = withoutSeparators (concat chunks).
Proof.
  induction chunks as [|c rest IH]; intros seps Hseps; [done|].
  destruct rest as [|c' rest].
  - simpl. by rewrite app_nil_r.
  - destruct seps as [|sp seps].
    + change (rejoin (c :: c' :: rest) []) with (c ++ rejoin (c' :: rest) []).
      change (concat (c :: c' :: rest)) with (c ++ concat (c' :: rest)).
      rewrite !withoutSeparators_app. by rewrite IH.
    + inversion Hseps as [|? ? Hsp Hrest]; subst.
      change (rejoin (c :: c' :: rest) (sp :: seps))
        with (c ++ sp ++ rejoin (c' :: rest) seps).
      change (concat (c :: c' :: rest)) with (c ++ concat (c' :: rest)).
      rewrite !withoutSeparators_app, Hsp. by rewrite IH.
Qed.

Section Coverage.
Variable chunkSize : Z.

Lemma recombineLoop_withoutSeparators separator :
  withoutSeparators separator = [] ->
  forall splits goodSplits currentChunk,
  withoutSeparators
    (concat (recombineLoop chunkSize separator splits goodSplits currentChunk)) =
  withoutSeparators (concat goodSplits) ++ withoutSeparators currentChunk
    ++ withoutSeparators (concat splits).
Proof.
  intros Hsep. induction splits as [|sp rest IH]; intros good cur; simpl.
  - rewrite app_nil_r. destruct cur as [|u cur]; simpl truthy; cbv iota.
    + by rewrite app_nil_r.
    + rewrite withoutSeparators_concat_app. simpl concat. by rewrite app_nil_r.
  - rewrite (withoutSeparators_app sp).
    match goal with |- context [len ?pc <? chunkSize] =>
      destruct (len pc <? chunkSize) end; rewrite IH.
    + destruct (Z.ltb_spec 0 (len cur)) as [Hcur|Hcur].
      * rewrite !withoutSeparators_app, Hsep. simpl. by rewrite <- !app_assoc.
      * destruct cur; [done|]. unfold len in Hcur. simpl in Hcur. lia.
    + destruct cur as [|u cur]; simpl truthy; cbv iota.
      * done.
      * rewrite withoutSeparators_concat_app. simpl concat.
        rewrite app_nil_r. by rewrite <- !app_assoc.
Qed.

Lemma processLoop_withoutSeparators recur : forall goodSplits processedSplits r,
  (forall c x, recur c = Some x -> withoutSeparators (concat x) = withoutSeparators c) ->
  processLoop chunkSize recur goodSplits processedSplits = Some r ->
  withoutSeparators (concat r) =
  withoutSeparators (concat processedSplits) ++ withoutSeparators (concat goodSplits).
Proof.
  induction goodSplits as [|c rest IH]; intros acc r Hrec; simpl.
  - intros [= <-]. by rewrite app_nil_r.
  - rewrite (withoutSeparators_app c).
    destruct (chunkSize <? len c).
    + destruct (recur c) as [x|] eqn:Hx; [|discriminate].
      intros H. rewrite (IH _ _ Hrec H), withoutSeparators_concat_app.
      rewrite (Hrec c x Hx). by rewrite <- app_assoc.
    + intros H. rewrite (IH _ _ Hrec H), withoutSeparators_concat_app.
      simpl concat. rewrite app_nil_r. by rewrite <- app_assoc.
Qed.

Lemma splitTextWith_withoutSeparators fallback fuel :
  forall currentText separatorIndex r,
  (forall f t x, fallback f t = Some x ->
     withoutSeparators (concat x) = withoutSeparators t) ->
  splitTextWith chunkSize fallback fuel currentText separatorIndex = Some r ->
  withoutSeparators (concat r) = withoutSeparators currentText.
Proof.
  induction fuel as [|fuel IH]; intros t idx r Hfb; [discriminate|].
  rewrite splitTextWith_S.
  destruct (len t <=? chunkSize).
  { intros [= <-]. simpl. by rewrite app_nil_r. }
  destruct (length separators <=? idx)%nat; [apply Hfb|].
  cbv zeta. intros H.
  apply processLoop_withoutSeparators in H; [|intros c x Hx; by eapply IH].
  rewrite H. cbn [concat].
  assert (withoutSeparators (nth idx separators []) = []) as Hsep.
  { destruct idx as [|[|[|[|[|idx]]]]]; done. }
  rewrite (recombineLoop_withoutSeparators _ Hsep). cbn [concat].
  rewrite !app_nil_l.
  destruct (bool_decide_reflect (nth idx separators [] = [])) as [Hnil|Hne].
  - by rewrite arrayFrom_concat.
  - by apply split_withoutSeparators.
Qed.

(** Without overlap the windows of the hard split tile the text. *)
Lemma hardSplitLoop_tiles fuel : forall currentText i hardChunks r,
  1 <= chunkSize -> 0 <= i ->
  hardSplitLoop chunkSize 0 fuel currentText i hardChunks = Some r ->
  concat r = concat hardChunks ++ drop (Z.to_nat i) currentText.
Proof.
  induction fuel as [|fuel IH]; intros t i acc r Hcs Hi; simpl; [discriminate|].
  destruct (Z.ltb_spec i (len t)) as [Hlt|Hge].
  - intros H. apply IH in H; [|done|lia]. rewrite H.
    rewrite concat_app. simpl. rewrite app_nil_r, <- app_assoc. f_equal.
    unfold slice. destruct (Z.ltb_spec i 0); [lia|].
    destruct (Z.ltb_spec (i + chunkSize) 0); [lia|].
    rewrite Z.sub_0_r.
    replace (Z.min i (len t)) with i by lia.
    rewrite <- (take_drop (Z.to_nat (Z.min (i + chunkSize) (len t) - i))
                  (drop (Z.to_nat i) t)) at 2.
    f_equal. rewrite drop_drop. unfold len in *.
    destruct (Z.le_ge_cases (i + chunkSize) (Z.of_nat (length t))).
    + f_equal. lia.
    + rewrite !drop_ge; [done| |]; lia.
  - intros [= <-]. rewrite drop_ge; [by rewrite app_nil_r|]. unfold len in Hge. lia.
Qed.

Lemma hardSplit_tiles fuel currentText r :
  1 <= chunkSize ->
  hardSplit chunkSize 0 fuel currentText = Some r -> concat r = currentText.
Proof.
  intros Hcs H. apply hardSplitLoop_tiles in H; [|done|done]. by rewrite H.
Qed.

End Coverage.

(** ** The splitter: the claims *)

(** C1.  For every text and every valid configuration ([chunkSize > 0],
    [0 <= chunkOverlap < chunkSize]) every chunk that
    [recursiveCharacterSplit] returns has length at most [chunkSize], the
    chunks of the hard split included; and with eight units of fuel or more
    it does return chunks. *)
Theorem C1_chunks_fit_chunkSize (text : jsstring) (chunkSize chunkOverlap : Z) (fuel : nat) :
  validConfiguration chunkSize chunkOverlap ->
  (forall chunks,
     recursiveCharacterSplit fuel text chunkSize chunkOverlap = Some chunks ->
     Forall (fun c => len c <= chunkSize) chunks) /\
  ((8 <= fuel)%nat ->
   exists chunks,
     recursiveCharacterSplit fuel text chunkSize chunkOverlap = Some chunks /\
     Forall (fun c => len c <= chunkSize) chunks).
Proof.
  intros [Hcs Hco].
  assert (forall chunks,
     recursiveCharacterSplit fuel text chunkSize chunkOverlap = Some chunks ->
     Forall (fun c => len c <= chunkSize) chunks) as Hfit.
  { intros chunks H. eapply splitTextWith_fits; [|exact H].
    intros f t r Hr.
    apply (hardSplitLoop_fits chunkSize chunkOverlap f t 0 [] r Hco);
      [lia|constructor|exact Hr]. }
  split; [exact Hfit|]. intros Hfuel.
  destruct (recursiveCharacterSplit_terminates chunkSize chunkOverlap fuel text)
    as [chunks Hchunks]; [lia|lia|].
  exists chunks. split; [done|]. by apply Hfit.
Qed.

(** A text that starts with a surrogate pair, so that the hard split
    runs. *)
Lemma C1_chunks_fit_chunkSize_witness :
  validConfiguration 1 0 /\
  exists chunks,
    recursiveCharacterSplit 8 [0xD83D; 0xDE00; 97] 1 0 = Some chunks /\
    Forall (fun c => len c <= 1) chunks.
Proof.
  split; [unfold validConfiguration; lia|].
  apply (C1_chunks_fit_chunkSize [0xD83D; 0xDE00; 97] 1 0 8);
    [unfold validConfiguration; lia|lia].
Defined.

(** C2.  For every text and every valid configuration, [chunkSize = 1]
    included, [recursiveCharacterSplit] terminates: the hard-split loop
    leaves after at most [currentText.length] steps because it advances by
    [chunkSize - chunkOverlap >= 1], and the whole call returns with eight
    units of fuel, whatever the text. *)
Theorem C2_split_terminates (text : jsstring) (chunkSize chunkOverlap : Z) :
  validConfiguration chunkSize chunkOverlap ->
  (forall fuel currentText, (length currentText < fuel)%nat ->
     exists hardChunks, hardSplit chunkSize chunkOverlap fuel currentText = Some hardChunks) /\
  (forall fuel, (8 <= fuel)%nat ->
     exists chunks, recursiveCharacterSplit fuel text chunkSize chunkOverlap = Some chunks).
Proof.
  intros [Hcs Hco]. split.
  - intros fuel t Hfuel. apply hardSplitLoop_terminates; [lia|lia|].
    unfold len. lia.
  - intros fuel Hfuel. apply recursiveCharacterSplit_terminates; lia.
Qed.

Lemma C2_split_terminates_witness :
  validConfiguration 1 0 /\
  exists chunks, recursiveCharacterSplit 8 (lit "ab cd") 1 0 = Some chunks.
Proof.
  split; [unfold validConfiguration; lia|].
  apply (C2_split_terminates (lit "ab cd") 1 0); [unfold validConfiguration; lia|lia].
Defined.

(** C3, as the code has it.  [recursiveCharacterSplit] does not check its
    configuration and has no InvalidConfiguration failure.  It returns
    chunks for every valid configuration, and also, without rejecting
    anything, whenever the text is no longer than [chunkSize] (the result is
    the text alone) and whenever [chunkSize >= 2], whatever [chunkOverlap]
    is. *)
Theorem C3_configuration_is_not_checked (text : jsstring) (chunkSize chunkOverlap : Z)
    (fuel : nat) :
  (8 <= fuel)%nat ->
  validConfiguration chunkSize chunkOverlap \/ len text <= chunkSize \/ 2 <= chunkSize ->
  exists chunks,
    recursiveCharacterSplit fuel text chunkSize chunkOverlap = Some chunks /\
    (len text <= chunkSize -> chunks = [text]).
Proof.
  intros Hfuel Hcase.
  assert (len text <= chunkSize ->
          recursiveCharacterSplit fuel text chunkSize chunkOverlap = Some [text]) as Hfit.
  { intros Hlen. destruct fuel as [|fuel]; [lia|].
    unfold recursiveCharacterSplit, splitText. rewrite splitTextWith_S.
    destruct (Z.leb_spec (len text) chunkSize); [done|lia]. }
  destruct (Z.le_gt_cases (len text) chunkSize) as [Hlen|Hlen].
  { exists [text]. split; [by apply Hfit|done]. }
  assert (exists chunks,
    recursiveCharacterSplit fuel text chunkSize chunkOverlap = Some chunks) as [chunks H].
  { destruct Hcase as [[Hcs Hco]|[?|Hcs]]; [|lia|].
    - apply recursiveCharacterSplit_terminates; lia.
    - unfold recursiveCharacterSplit, splitText.
      rewrite (splitTextWith_fallback_irrelevant chunkSize ltac:(lia)
                 _ (hardSplit chunkSize 0)); [|lia|by left].
      apply (recursiveCharacterSplit_terminates chunkSize 0); lia. }
  exists chunks. split; [done|lia].
Qed.

(** An overlap above the chunk size is accepted. *)
Lemma C3_configuration_is_not_checked_witness :
  (8 <= 8)%nat /\
  (validConfiguration 5 7 \/ len (lit "hello world") <= 5 \/ 2 <= 5) /\
  exists chunks,
    recursiveCharacterSplit 8 (lit "hello world") 5 7 = Some chunks /\
    (len (lit "hello world") <= 5 -> chunks = [lit "hello world"]).
Proof.
  split; [lia|]. split; [right; right; lia|].
  apply (C3_configuration_is_not_checked (lit "hello world") 5 7 8);
    [lia|right; right; lia].
Defined.

(** C3 fails as stated: with [chunkOverlap = 7 >= chunkSize = 5] the call
    returns ["ab"] instead of failing, and with [chunkSize = 0] on "a" the
    hard split steps by 0 and the call never returns. *)
Lemma C3_counterexample :
  ~ validConfiguration 5 7 /\
  recursiveCharacterSplit 8 (lit "ab") 5 7 = Some [lit "ab"] /\
  ~ validConfiguration 0 0 /\
  forall fuel, recursiveCharacterSplit fuel (lit "a") 0 0 = None.
Proof.
  split; [unfold validConfiguration; lia|]. split; [reflexivity|].
  split; [unfold validConfiguration; lia|].
  intros fuel. do 5 (destruct fuel as [|fuel]; [reflexivity|]).
  unfold recursiveCharacterSplit, splitText.
  change (lit "a") with [97].
  simpl. unfold hardSplit. rewrite hardSplitLoop_diverges; [reflexivity|lia|reflexivity].
Qed.

(** C4 fails as stated: for 1000 copies of the letter "a" with
    [chunkSize = 100] and [chunkOverlap = 0] the call returns eleven
    chunks, ten of 99 letters and one of 10, not ten chunks of 100.  The
    hard split, which would cut ten windows of 100, is not executed. *)
Lemma C4_counterexample :
  recursiveCharacterSplit 8 (replicate 1000 97) 100 0 =
    Some (replicate 10 (replicate 99 97) ++ [replicate 10 97]) /\
  replicate 10 (replicate 99 97) ++ [replicate 10 97]
    <> replicate 10 (replicate 100 97) /\
  splitTextNoFallback 100 8 (replicate 1000 97) 0 =
    Some (replicate 10 (replicate 99 97) ++ [replicate 10 97]) /\
  hardSplit 100 0 11 (replicate 1000 97) = Some (replicate 10 (replicate 100 97)).
Proof.
  split; [vm_compute; reflexivity|]. split; [|split; vm_compute; reflexivity].
  intros H. apply (f_equal length) in H. vm_compute in H. discriminate.
Qed.

(** ** createChunksFromDoc *)

Lemma mapChunks_length docId : forall rawChunks idx,
  length (mapChunks docId idx rawChunks) = length rawChunks.
Proof. induction rawChunks as [|t rest IH]; intros idx; simpl; [done|]. by rewrite IH. Qed.

Lemma mapChunks_lookup docId : forall rawChunks idx k text,
  rawChunks !! k = Some text ->
  mapChunks docId idx rawChunks !! k =
    Some {| id := docId ++ lit "-chunk-" ++ numberToString (idx + k);
            sourceId := docId;
            content := trim text;
            metadata := {| startIndex := Z.of_nat (idx + k);
                           endIndex := Z.of_nat (idx + k) + 1 |} |}.
Proof.
  induction rawChunks as [|t rest IH]; intros idx k text; [done|].
  destruct k as [|k]; simpl.
  - intros [= ->]. by rewrite Nat.add_0_r.
  - intros H. rewrite (IH (S idx) k text H).
    by replace (S idx + k)%nat with (idx + S k)%nat by lia.
Qed.

(** C8, as the code has it.  [createChunksFromDoc] splits the content with
    the defaults 500 and 50 and turns the raw pieces into chunks one for
    one: the chunk at index [idx] has the identifier
    [{documentId}-chunk-{idx}], the document as its source and the trimmed
    piece as its content.  No piece is dropped, so there are as many chunks
    as pieces. *)
Theorem C8_createChunksFromDoc (docId content : jsstring) (fuel : nat) :
  (8 <= fuel)%nat ->
  exists rawChunks chunks,
    recursiveCharacterSplit fuel content 500 50 = Some rawChunks /\
    createChunksFromDoc fuel docId content = Some chunks /\
    length chunks = length rawChunks /\
    forall idx text, rawChunks !! idx = Some text ->
      chunks !! idx =
        Some {| id := docId ++ lit "-chunk-" ++ numberToString idx;
                sourceId := docId;
                TextProcessor.content := trim text;
                metadata := {| startIndex := Z.of_nat idx;
                               endIndex := Z.of_nat idx + 1 |} |}.
Proof.
  intros Hfuel.
  destruct (recursiveCharacterSplit_terminates 500 50 fuel content) as [raw Hraw];
    [lia|lia|].
  exists raw, (mapChunks docId 0 raw). unfold createChunksFromDoc. rewrite Hraw.
  split; [done|]. split; [done|]. split; [apply mapChunks_length|].
  intros idx text H. by rewrite (mapChunks_lookup docId raw 0 idx text H).
Qed.

Lemma C8_createChunksFromDoc_witness :
  (8 <= 8)%nat /\
  exists rawChunks chunks,
    recursiveCharacterSplit 8 (lit "kubectl get pods") 500 50 = Some rawChunks /\
    createChunksFromDoc 8 (lit "doc-1") (lit "kubectl get pods") = Some chunks /\
    length chunks = length rawChunks /\
    forall idx text, rawChunks !! idx = Some text ->
      chunks !! idx =
        Some {| id := lit "doc-1" ++ lit "-chunk-" ++ numberToString idx;
                sourceId := lit "doc-1";
                TextProcessor.content := trim text;
                metadata := {| startIndex := Z.of_nat idx;
                               endIndex := Z.of_nat idx + 1 |} |}.
Proof.
  split; [lia|].
  apply (C8_createChunksFromDoc (lit "doc-1") (lit "kubectl get pods") 8). lia.
Defined.

(** C8 fails as stated: a content of one space gives one chunk, with
    identifier "doc-1-chunk-0" and empty content. *)
Lemma C8_counterexample :
  createChunksFromDoc 8 (lit "doc-1") (lit " ") =
    Some [ {| id := lit "doc-1-chunk-0";
              sourceId := lit "doc-1";
              content := [];
              metadata := {| startIndex := 0; endIndex := 1 |} |} ].
Proof. reflexivity. Qed.

(** ** The splitter: coverage and the role of the overlap *)

(** *** Chunks and the runs of separators between them *)

(** [s.split(sep).join(sep)] is [s]: the pieces, each but the first
    preceded by the separator, make up the text. *)
Lemma splitGo_join (sep : jsstring) :
  sep <> [] ->
  forall s piece skip, (skip <= length s)%nat ->
  exists p rest,
    splitGo sep s piece skip = p :: rest /\
    p ++ concat (map (app sep) rest) = piece ++ drop skip s.
Proof.
  intros Hne. induction s as [|c s IH]; intros piece skip Hskip.
  - exists piece, []. simpl in Hskip. by replace skip with 0%nat by lia.
  - destruct skip as [|k]; cbn [splitGo].
    + destruct (startsWith sep (c :: s)) eqn:Hsw.
      * pose proof (startsWith_prefix _ _ Hsw) as Hpre.
        destruct sep as [|a sep]; [done|].
        cbn [length take] in Hpre. injection Hpre as Hca Hpre. subst a.
        assert (length sep <= length s)%nat as Hlen.
        { rewrite <- Hpre at 1. rewrite length_take. lia. }
        destruct (IH [] (length sep) Hlen) as (p & rest & Heq & Hjoin).
        exists piece, (p :: rest). cbn [length pred]. rewrite Heq.
        split; [done|]. cbn [map concat drop].
        rewrite <- app_assoc, Hjoin. cbn [app]. f_equal. f_equal.
        rewrite <- Hpre at 1. apply take_drop.
      * destruct (IH (piece ++ [c]) 0%nat ltac:(lia)) as (p & rest & Heq & Hjoin).
        exists p, rest. split; [done|]. rewrite Hjoin. cbn [drop].
        by rewrite <- app_assoc.
    + simpl in Hskip.
      destruct (IH piece k ltac:(lia)) as (p & rest & Heq & Hjoin).
      by exists p, rest.
Qed.

Lemma recombineLoop_first chunkSize separator p rest :
  recombineLoop chunkSize separator (p :: rest) [] [] =
  recombineLoop chunkSize separator rest [] p.
Proof. simpl. by destruct (len p <? chunkSize). Qed.


Lemma Covers_gap_l (gap : jsstring) chunks s :
  Forall (fun c => isSeparatorUnit c = true) gap ->
  Covers chunks s -> Covers chunks (gap ++ s).
Proof.
  intros Hgap H. destruct H as [g Hg|g c chunks rest Hg Hrest].
  - constructor. by apply Forall_app.
  - rewrite app_assoc. constructor; [by apply Forall_app|done].
Qed.

Lemma Covers_app a b s1 s2 :
  Covers a s1 -> Covers b s2 -> Covers (a ++ b) (s1 ++ s2).
Proof.
  intros Ha Hb. induction Ha as [g Hg|g c chunks rest Hg Hrest IH].
  - by apply Covers_gap_l.
  - rewrite <- !app_assoc. cbn [app]. by constructor.
Qed.

Lemma Covers_gap_r (gap : jsstring) chunks s :
  Covers chunks s -> Forall (fun c => isSeparatorUnit c = true) gap ->
  Covers chunks (s ++ gap).
Proof.
  intros H Hgap. rewrite <- (app_nil_r chunks).
  apply Covers_app; [done|by constructor].
Qed.

Lemma Covers_single (c : jsstring) : Covers [c] c.
Proof.
  rewrite <- (app_nil_r c) at 2. apply (Covers_cons [] c [] []); by constructor.
Qed.

Lemma Covers_concat (r : list jsstring) : Covers r (concat r).
Proof.
  induction r as [|c r IH]; [by constructor|].
  apply (Covers_cons [] c r (concat r)); [constructor|done].
Qed.

Section Covering.
Variable chunkSize : Z.

Lemma recombineLoop_covers (separator : jsstring) :
  Forall (fun c => isSeparatorUnit c = true) separator ->
  forall splits goodSplits currentChunk before,
  Covers goodSplits before ->
  Covers (recombineLoop chunkSize separator splits goodSplits currentChunk)
         (before ++ currentChunk ++ concat (map (app separator) splits)).
Proof.
  intros Hsep. induction splits as [|sp rest IH]; intros good cur pre Hgood.
  - cbn [map concat recombineLoop]. rewrite app_nil_r.
    destruct cur as [|u cur]; cbn [truthy].
    + by rewrite app_nil_r.
    + apply Covers_app; [done|apply Covers_single].
  - cbn [map concat recombineLoop]. cbv zeta.
    destruct (Z.ltb_spec 0 (len cur)) as [Hpos|Hzero].
    + match goal with |- context [len ?pc <? chunkSize] =>
        destruct (len pc <? chunkSize) end.
      * specialize (IH good (cur ++ separator ++ sp) pre Hgood).
        by rewrite <- !app_assoc in *.
      * destruct cur as [|u cur]; [unfold len in Hpos; simpl in Hpos; lia|].
        cbn [truthy].
        assert (Covers (good ++ [u :: cur]) ((pre ++ (u :: cur)) ++ separator)) as Hnext.
        { apply Covers_gap_r; [|done]. apply Covers_app; [done|apply Covers_single]. }
        specialize (IH _ sp _ Hnext). by rewrite <- !app_assoc in *.
    + destruct cur as [|u cur]; [|unfold len in Hzero; simpl in Hzero; lia].
      cbn [truthy app].
      assert (Covers good (pre ++ separator)) as Hnext by (by apply Covers_gap_r).
      match goal with |- context [len ?pc <? chunkSize] =>
        destruct (len pc <? chunkSize) end;
        specialize (IH _ sp _ Hnext); by rewrite <- !app_assoc in *.
Qed.

Lemma level_covers (text : jsstring) (separatorIndex : nat) :
  let separator := nth separatorIndex separators [] in
  Covers (recombineLoop chunkSize separator
            (if bool_decide (separator = [])
             then arrayFrom text else split text separator) [] [])
         text.
Proof.
  cbv zeta.
  assert (Forall (fun c => isSeparatorUnit c = true)
            (nth separatorIndex separators [])) as Hsep.
  { destruct separatorIndex as [|[|[|[|[|?]]]]]; by repeat constructor. }
  destruct (bool_decide_reflect (nth separatorIndex separators [] = [])) as [Hnil|Hne].
  - rewrite Hnil. pose proof (arrayFrom_concat text) as Hcat.
    destruct (arrayFrom text) as [|p rest].
    + simpl in *. subst. by constructor.
    + rewrite recombineLoop_first.
      pose proof (recombineLoop_covers [] ltac:(constructor) rest [] p []
                    ltac:(by constructor)) as H.
      replace (map (app []) rest) with rest in H by (by rewrite map_id).
      simpl in Hcat, H. by rewrite Hcat in H.
  - destruct (splitGo_join _ Hne text [] 0%nat ltac:(lia)) as (p & rest & Heq & Hjoin).
    unfold split. rewrite Heq, recombineLoop_first.
    pose proof (recombineLoop_covers _ Hsep rest [] p [] ltac:(by constructor)) as H.
    cbn [app] in H, Hjoin. by rewrite Hjoin in H.
Qed.

Lemma processLoop_covers recur : forall goodSplits processedSplits before after r,
  (forall c x, recur c = Some x -> Covers x c) ->
  Covers processedSplits before -> Covers goodSplits after ->
  processLoop chunkSize recur goodSplits processedSplits = Some r ->
  Covers r (before ++ after).
Proof.
  induction goodSplits as [|c rest IH]; intros acc pre post r Hrec Hacc Hgood.
  - inversion Hgood as [gap Hgap|]; subst. simpl. intros [= <-].
    by apply Covers_gap_r.
  - inversion Hgood as [|gap ? ? post' Hgap Hrest]; subst. simpl.
    destruct (chunkSize <? len c).
    + destruct (recur c) as [x|] eqn:Hx; [|discriminate].
      intros H.
      assert (Covers (acc ++ x) (pre ++ gap ++ c)) as Hnext.
      { apply Covers_app; [done|]. apply Covers_gap_l; [done|by apply Hrec]. }
      pose proof (IH _ _ _ _ Hrec Hnext Hrest H) as Hr.
      by rewrite <- !app_assoc in Hr.
    + intros H.
      assert (Covers (acc ++ [c]) (pre ++ gap ++ c)) as Hnext.
      { apply Covers_app; [done|]. apply Covers_gap_l; [done|apply Covers_single]. }
      pose proof (IH _ _ _ _ Hrec Hnext Hrest H) as Hr.
      by rewrite <- !app_assoc in Hr.
Qed.

Lemma splitTextWith_covers fallback fuel : forall currentText separatorIndex r,
  (forall f t x, fallback f t = Some x -> Covers x t) ->
  splitTextWith chunkSize fallback fuel currentText separatorIndex = Some r ->
  Covers r currentText.
Proof.
  induction fuel as [|fuel IH]; intros t idx r Hfb; [discriminate|].
  rewrite splitTextWith_S.
  destruct (len t <=? chunkSize).
  { intros [= <-]. apply Covers_single. }
  destruct (length separators <=? idx)%nat; [apply Hfb|].
  cbv zeta. intros H.
  apply (processLoop_covers _ _ [] [] t r) in H; [done| |by constructor|].
  - intros c x Hx. by eapply IH.
  - apply level_covers.
Qed.

End Covering.

(** C9, as the code has it.  For every text and valid configuration the
    input text is exactly the chunks returned, in order, with a run of line
    feeds and spaces (possibly empty) before, between and after them: every
    character of the input is kept, in its place, inside a chunk, except
    line feeds and spaces at the chunk boundaries and at the two ends.
    Hence the chunks concatenated with any separators of the hierarchy put
    back at the boundaries equal the text once line feeds and spaces are
    deleted from both, and every other code unit of the text occurs in that
    reconstruction. *)
Theorem C9_non_separator_text_is_kept (text : jsstring) (chunkSize chunkOverlap : Z)
    (fuel : nat) :
  validConfiguration chunkSize chunkOverlap -> (8 <= fuel)%nat ->
  exists chunks,
    recursiveCharacterSplit fuel text chunkSize chunkOverlap = Some chunks /\
    Covers chunks text /\
    forall seps, Forall (fun sp => sp ∈ separators) seps ->
      withoutSeparators (rejoin chunks seps) = withoutSeparators text /\
      forall c, c ∈ text -> isSeparatorUnit c = false -> c ∈ rejoin chunks seps.
Proof.
  intros [Hcs Hco] Hfuel.
  destruct (recursiveCharacterSplit_terminates chunkSize chunkOverlap fuel text)
    as [chunks Hchunks]; [lia|lia|].
  exists chunks. split; [done|].
  assert (Covers chunks text /\
          withoutSeparators (concat chunks) = withoutSeparators text) as [Hcov Hkept].
  { unfold recursiveCharacterSplit, splitText in Hchunks.
    destruct (decide (chunkOverlap = 0)) as [->|Hne].
    - split.
      + eapply splitTextWith_covers; [|exact Hchunks].
        intros f t x Hx. rewrite <- (hardSplit_tiles chunkSize f t x ltac:(lia) Hx).
        apply Covers_concat.
      + eapply splitTextWith_withoutSeparators; [|exact Hchunks].
        intros f t x Hx. by rewrite (hardSplit_tiles chunkSize f t x ltac:(lia) Hx).
    - rewrite (splitTextWith_fallback_irrelevant chunkSize ltac:(lia)
                 _ (fun _ _ => None)) in Hchunks; [|lia|left; lia].
      split.
      + eapply splitTextWith_covers; [|exact Hchunks]. done.
      + eapply splitTextWith_withoutSeparators; [|exact Hchunks]. done. }
  split; [done|].
  intros seps Hseps.
  assert (withoutSeparators (rejoin chunks seps) = withoutSeparators text) as Hrejoin.
  { rewrite rejoin_withoutSeparators; [done|].
    eapply Forall_impl; [exact Hseps|]. intros sp Hsp.
    unfold separators in Hsp.
    repeat (apply elem_of_cons in Hsp as [->|Hsp]; [reflexivity|]).
    by apply elem_of_nil in Hsp. }
  split; [done|]. intros c Hin Hc.
  assert (c ∈ withoutSeparators text) as Hc'.
  { apply list_elem_of_In, List.filter_In. split; [by apply list_elem_of_In|by rewrite Hc]. }
  rewrite <- Hrejoin in Hc'.
  apply list_elem_of_In, List.filter_In in Hc' as [Hc' _]. by apply list_elem_of_In.
Qed.

(** "hello big world" with [chunkSize = 10]: the first chunk, "hello big",
    keeps its space; the space before "world" is the run between the two
    chunks. *)
Lemma C9_non_separator_text_is_kept_witness :
  validConfiguration 10 2 /\ (8 <= 8)%nat /\
  recursiveCharacterSplit 8 (lit "hello big world") 10 2 =
    Some [lit "hello big"; lit "world"] /\
  exists chunks,
    recursiveCharacterSplit 8 (lit "hello big world") 10 2 = Some chunks /\
    Covers chunks (lit "hello big world") /\
    forall seps, Forall (fun sp => sp ∈ separators) seps ->
      withoutSeparators (rejoin chunks seps) = withoutSeparators (lit "hello big world") /\
      forall c, c ∈ lit "hello big world" -> isSeparatorUnit c = false ->
        c ∈ rejoin chunks seps.
Proof.
  split; [unfold validConfiguration; lia|]. split; [lia|].
  split; [reflexivity|].
  apply (C9_non_separator_text_is_kept (lit "hello big world") 10 2 8);
    [unfold validConfiguration; lia|lia].
Defined.

(** C9 fails as stated: "hello " with [chunkSize = 5] gives the single
    chunk "hello"; there is no boundary to put a separator back at, and
    the space of the input is in no reconstruction.  With four spaces after
    "hello" the result is the same chunk, and even a separator put at each
    end of it brings back fewer spaces than the input has. *)
Lemma C9_counterexample :
  validConfiguration 5 0 /\
  32 ∈ lit "hello " /\
  (forall fuel chunks,
     recursiveCharacterSplit fuel (lit "hello ") 5 0 = Some chunks ->
     chunks = [lit "hello"] /\ forall seps, 32 ∉ rejoin chunks seps) /\
  (forall fuel chunks,
     recursiveCharacterSplit fuel (lit "hello    ") 5 0 = Some chunks ->
     chunks = [lit "hello"] /\
     forall seps before after, before ∈ separators -> after ∈ separators ->
       (occurrences 32 (before ++ rejoin chunks seps ++ after)
        < occurrences 32 (lit "hello    "))%nat).
Proof.
  split; [unfold validConfiguration; lia|].
  split; [apply list_elem_of_In; vm_compute; tauto|].
  split.
  - intros fuel chunks H.
    assert (chunks = [lit "hello"]) as ->.
    { eapply recursiveCharacterSplit_fuel; [exact H|].
      instantiate (1 := 8%nat). reflexivity. }
    split; [done|]. intros seps Hin.
    apply list_elem_of_In in Hin. vm_compute in Hin. intuition discriminate.
  - intros fuel chunks H.
    assert (chunks = [lit "hello"]) as ->.
    { eapply recursiveCharacterSplit_fuel; [exact H|].
      instantiate (1 := 8%nat). reflexivity. }
    split; [done|]. intros seps before after Hb Ha.
    change (rejoin [lit "hello"] seps) with (lit "hello").
    unfold separators in Hb, Ha.
    repeat (apply elem_of_cons in Hb as [->|Hb]);
      try (by apply elem_of_nil in Hb);
      repeat (apply elem_of_cons in Ha as [->|Ha]);
      try (by apply elem_of_nil in Ha); vm_compute; lia.
Qed.

(** C10, as the code has it.  For [chunkSize >= 2] and every text, and for
    [chunkSize = 1] and every text without a surrogate pair, the hard-split
    branch is not executed: the call returns what the function with that
    branch trapped returns, so the result is the same for all values of
    [chunkOverlap]. *)
Theorem C10_overlap_is_not_used (text : jsstring) (chunkSize : Z) (fuel : nat) :
  1 <= chunkSize ->
  2 <= chunkSize \/ hasSurrogatePair text = false ->
  (forall chunkOverlap,
     recursiveCharacterSplit fuel text chunkSize chunkOverlap =
     splitTextNoFallback chunkSize fuel text 0) /\
  (forall o1 o2,
     recursiveCharacterSplit fuel text chunkSize o1 =
     recursiveCharacterSplit fuel text chunkSize o2) /\
  ((8 <= fuel)%nat ->
   exists chunks, splitTextNoFallback chunkSize fuel text 0 = Some chunks).
Proof.
  intros Hcs Hok.
  assert (forall chunkOverlap,
     recursiveCharacterSplit fuel text chunkSize chunkOverlap =
     splitTextNoFallback chunkSize fuel text 0) as Hsame.
  { intros co. apply splitTextWith_fallback_irrelevant; [done|lia|done]. }
  split; [exact Hsame|]. split.
  - intros o1 o2. by rewrite !Hsame.
  - intros Hfuel. rewrite <- (Hsame 0).
    apply recursiveCharacterSplit_terminates; lia.
Qed.

Lemma C10_overlap_is_not_used_witness :
  1 <= 3 /\
  (2 <= 3 \/ hasSurrogatePair (lit "ab cdefg") = false) /\
  (forall chunkOverlap,
     recursiveCharacterSplit 8 (lit "ab cdefg") 3 chunkOverlap =
     splitTextNoFallback 3 8 (lit "ab cdefg") 0) /\
  (forall o1 o2,
     recursiveCharacterSplit 8 (lit "ab cdefg") 3 o1 =
     recursiveCharacterSplit 8 (lit "ab cdefg") 3 o2) /\
  ((8 <= 8)%nat ->
   exists chunks, splitTextNoFallback 3 8 (lit "ab cdefg") 0 = Some chunks).
Proof.
  split; [lia|]. split; [left; lia|].
  apply (C10_overlap_is_not_used (lit "ab cdefg") 3 8); [lia|left; lia].
Defined.

(** C10 fails as stated: for the single code point U+1F600, a surrogate
    pair, and [chunkSize = 1] the code-point level yields an element of
    length 2, the hard split is executed whatever the fuel, and the result
    depends on [chunkOverlap]: two chunks with 0, one chunk (the low
    surrogate is lost) with -1, no return with 1. *)
Lemma C10_counterexample :
  1 <= 1 /\
  (forall fuel, splitTextNoFallback 1 fuel [0xD83D; 0xDE00] 0 = None) /\
  recursiveCharacterSplit 8 [0xD83D; 0xDE00] 1 0 = Some [[0xD83D]; [0xDE00]] /\
  recursiveCharacterSplit 8 [0xD83D; 0xDE00] 1 (-1) = Some [[0xD83D]] /\
  (forall fuel, recursiveCharacterSplit fuel [0xD83D; 0xDE00] 1 1 = None).
Proof.
  split; [lia|]. split; [|split; [reflexivity|split; [reflexivity|]]].
  - intros fuel. do 5 (destruct fuel as [|fuel]; [reflexivity|]). reflexivity.
  - intros fuel. do 5 (destruct fuel as [|fuel]; [reflexivity|]).
    unfold recursiveCharacterSplit, splitText. simpl. unfold hardSplit.
    rewrite hardSplitLoop_diverges; [reflexivity|lia|reflexivity].
Qed.

(** ** The retriever: sorting by a score *)

Section SortByKey.
Context {A : Type} (key : A -> Q).

(** The comparator of the source, for any way of reading a score off an
    element. *)
Local Abbreviation byKey := (fun a b : A => (key b - key a)%Q).

Lemma byKey_keeps x y : Qle_bool (byKey x y) 0 = true <-> (key y <= key x)%Q.
Proof. cbv beta. rewrite Qle_bool_iff. split; intros; lra. Qed.

Lemma insertSorted_Forall (P : A -> Prop) x : forall l,
  P x -> Forall P l -> Forall P (insertSorted byKey x l).
Proof.
  induction l as [|y l IH]; intros Hx Hl; simpl; [by repeat constructor|].
  destruct (Qle_bool (byKey x y) 0); [by constructor|].
  inversion Hl; subst. constructor; auto.
Qed.

Lemma insertSorted_length x : forall l,
  length (insertSorted byKey x l) = S (length l).
Proof.
  induction l as [|y l IH]; simpl; [done|].
  destruct (Qle_bool (byKey x y) 0); simpl; [done|]. by rewrite IH.
Qed.

Lemma sort_length : forall l, length (sort byKey l) = length l.
Proof.
  induction l as [|x l IH]; simpl; [done|]. by rewrite insertSorted_length, IH.
Qed.

Lemma insertSorted_sorted x : forall l,
  StronglySorted (fun a b => (key b <= key a)%Q) l ->
  StronglySorted (fun a b => (key b <= key a)%Q) (insertSorted byKey x l).
Proof.
  induction l as [|y l IH]; intros Hl; simpl; [by repeat constructor|].
  inversion Hl as [|? ? Hsorted Hall]; subst.
  destruct (Qle_bool (byKey x y) 0) eqn:Hcmp.
  - apply byKey_keeps in Hcmp. constructor; [done|].
    constructor; [done|].
    eapply Forall_impl; [exact Hall|]. simpl. intros z Hz. lra.
  - constructor; [by apply IH|].
    apply insertSorted_Forall; [|done].
    destruct (Qlt_le_dec (key y) (key x)) as [Hlt|Hle]; [|done].
    assert (Qle_bool (byKey x y) 0 = true) as Hc by (apply byKey_keeps; lra).
    congruence.
Qed.

Lemma sort_sorted : forall l,
  StronglySorted (fun a b => (key b <= key a)%Q) (sort byKey l).
Proof.
  induction l as [|x l IH]; simpl; [constructor|]. by apply insertSorted_sorted.
Qed.

(** Stability: the elements of any one score keep their order. *)
Lemma insertSorted_filter s x : forall l,
  List.filter (fun a => Qeq_bool (key a) s) (insertSorted byKey x l) =
  List.filter (fun a => Qeq_bool (key a) s) (x :: l).
Proof.
  induction l as [|y l IH]; [done|].
  cbn [insertSorted].
  destruct (Qle_bool (byKey x y) 0) eqn:Hcmp; [done|].
  cbn [List.filter] in *. rewrite IH.
  destruct (Qeq_bool (key x) s) eqn:Hx; [|done].
  destruct (Qeq_bool (key y) s) eqn:Hy; [|done].
  apply Qeq_bool_iff in Hx, Hy.
  assert (Qle_bool (byKey x y) 0 = true) as Hc by (apply byKey_keeps; lra).
  congruence.
Qed.

Lemma sort_filter s : forall l,
  List.filter (fun a => Qeq_bool (key a) s) (sort byKey l) =
  List.filter (fun a => Qeq_bool (key a) s) l.
Proof.
  induction l as [|x l IH]; [done|].
  cbn [sort]. rewrite insertSorted_filter. cbn [List.filter]. by rewrite IH.
Qed.

(** When all scores are equal the sort changes nothing. *)
Lemma sort_all_equal s : forall l,
  Forall (fun a => (key a == s)%Q) l -> sort byKey l = l.
Proof.
  induction l as [|x l IH]; intros Hl; [done|].
  inversion Hl as [|? ? Hx Hrest]; subst.
  cbn [sort]. rewrite (IH Hrest).
  destruct l as [|y l]; [done|]. cbn [insertSorted].
  inversion Hrest as [|? ? Hy _]; subst.
  assert (Qle_bool (byKey x y) 0 = true) as -> by (apply byKey_keeps; lra).
  done.
Qed.

End SortByKey.

(** Sorting records built from the elements is sorting the elements. *)
Lemma insertSorted_map {A B} (f : A -> B) (cmp : B -> B -> Q) x : forall l,
  insertSorted cmp (f x) (map f l) =
  map f (insertSorted (fun a b => cmp (f a) (f b)) x l).
Proof.
  induction l as [|y l IH]; simpl; [done|].
  destruct (Qle_bool (cmp (f x) (f y)) 0); simpl; [done|]. by rewrite IH.
Qed.

Lemma sort_map {A B} (f : A -> B) (cmp : B -> B -> Q) : forall l,
  sort cmp (map f l) = map f (sort (fun a b => cmp (f a) (f b)) l).
Proof.
  induction l as [|x l IH]; simpl; [done|]. by rewrite IH, insertSorted_map.
Qed.

Lemma slice_from_0 {A} (l : list A) (k : Z) :
  slice l 0 k =
  take (Z.to_nat (if k <? 0 then Z.max (len l + k) 0 else Z.min k (len l))) l.
Proof.
  unfold slice. simpl (0 <? 0).
  replace (Z.min 0 (len l)) with 0 by (unfold len; lia).
  by rewrite Z.sub_0_r.
Qed.

Lemma slice_map {A B} (f : A -> B) (l : list A) (i j : Z) :
  slice (map f l) i j = map f (slice l i j).
Proof.
  unfold slice, len. rewrite length_map.
  by rewrite <- fmap_drop, <- fmap_take.
Qed.

(** [retrieveRelevantChunks] is the first [topK] chunks of the chunks
    sorted by their score against the query. *)
Lemma retrieveRelevantChunks_sorted_prefix query allChunks topK :
  retrieveRelevantChunks query allChunks topK =
  slice (sort (fun a b => (scoreOf query b - scoreOf query a)%Q) allChunks) 0 topK.
Proof.
  unfold retrieveRelevantChunks.
  destruct allChunks as [|c rest].
  { change (len (@nil DocumentChunk) =? 0) with true. cbv iota.
    unfold slice. cbv zeta. cbn [sort]. by rewrite drop_nil, take_nil. }
  change (len (c :: rest) =? 0) with (Z.of_nat (S (length rest)) =? 0).
  destruct (Z.eqb_spec (Z.of_nat (S (length rest))) 0); [lia|].
  cbv zeta.
  rewrite (sort_map
    (fun c => {| chunk := c;
                 score := calculateScore (tokenize query) (tokenize (content c)) |})
    compareFn).
  rewrite slice_map, <- list_fmap_compose.
  unfold compareFn, scoreOf. cbn [score].
  apply list_fmap_id.
Qed.

(** ** The retriever: token sets and the score *)

Lemma newSet_from (l : list jsstring) : forall acc,
  NoDup acc ->
  NoDup (fold_left add l acc) /\
  forall x, x ∈ fold_left add l acc <-> x ∈ acc \/ x ∈ l.
Proof.
  induction l as [|a l IH]; intros acc Hacc; simpl.
  - split; [done|]. intros x. rewrite elem_of_nil. tauto.
  - unfold add at 2 4. unfold has.
    destruct (bool_decide_reflect (a ∈ acc)) as [Hin|Hnin].
    + destruct (IH acc Hacc) as [Hnd Hel]. split; [done|].
      intros x. rewrite Hel, elem_of_cons. split; [tauto|].
      intros [?|[->|?]]; tauto.
    + assert (NoDup (acc ++ [a])) as Hacc'.
      { apply NoDup_app. split; [done|]. split; [|apply NoDup_singleton].
        intros x Hx Hxa. apply list_elem_of_singleton in Hxa as ->. done. }
      destruct (IH (acc ++ [a]) Hacc') as [Hnd Hel]. split; [done|].
      intros x. rewrite Hel, elem_of_app, list_elem_of_singleton, elem_of_cons. tauto.
Qed.

Lemma newSet_NoDup (l : list jsstring) : NoDup (newSet l).
Proof. apply newSet_from. constructor. Qed.

Lemma newSet_elem_of (l : list jsstring) x : x ∈ newSet l <-> x ∈ l.
Proof.
  unfold newSet. rewrite (proj2 (newSet_from l [] (NoDup_nil_2))).
  rewrite elem_of_nil. tauto.
Qed.

Lemma tokenize_tokenSet (text : jsstring) :
  list_to_set (tokenize text) = tokenSet text.
Proof.
  apply set_eq. intros x. unfold tokenize, tokenSet.
  by rewrite !elem_of_list_to_set, newSet_elem_of.
Qed.

Lemma tokenize_size (text : jsstring) :
  len (tokenize text) = Z.of_nat (size (tokenSet text)).
Proof.
  rewrite <- tokenize_tokenSet. unfold len. f_equal. symmetry.
  apply size_list_to_set, newSet_NoDup.
Qed.

Lemma size_insert_fresh (x : jsstring) (X : gset jsstring) :
  x ∉ X -> size ({[x]} ∪ X) = S (size X).
Proof.
  intros Hx. rewrite size_union, size_singleton; [done|].
  intros y Hy1 Hy2. by apply elem_of_singleton in Hy1 as ->.
Qed.

(** The loop of [calculateScore] counts the common elements. *)
Lemma countOverlap_spec (chunkTokens : list jsstring) : forall queryTokens overlap,
  NoDup queryTokens ->
  countOverlap chunkTokens queryTokens overlap =
  overlap + Z.of_nat (size ((list_to_set queryTokens : gset jsstring)
                              ∩ list_to_set chunkTokens)).
Proof.
  induction queryTokens as [|qt rest IH]; intros overlap Hnd; simpl.
  - rewrite intersection_empty_l_L, size_empty. lia.
  - apply NoDup_cons in Hnd as [Hqt Hrest]. rewrite (IH _ Hrest).
    unfold has.
    destruct (bool_decide_reflect (qt ∈ chunkTokens)) as [Hin|Hnin].
    + assert ((({[qt]} ∪ list_to_set rest) ∩ list_to_set chunkTokens : gset jsstring)
              = {[qt]} ∪ (list_to_set rest ∩ list_to_set chunkTokens)) as ->.
      { apply set_eq. intros x.
        rewrite !elem_of_intersection, !elem_of_union, !elem_of_intersection,
          elem_of_singleton, !elem_of_list_to_set.
        split; [tauto|]. intros [->|?]; tauto. }
      rewrite size_insert_fresh; [lia|].
      intros Hx. apply elem_of_intersection in Hx as [Hx _].
      by apply elem_of_list_to_set in Hx.
    + assert ((({[qt]} ∪ list_to_set rest) ∩ list_to_set chunkTokens : gset jsstring)
              = list_to_set rest ∩ list_to_set chunkTokens) as ->.
      { apply set_eq. intros x.
        rewrite !elem_of_intersection, !elem_of_union,
          elem_of_singleton, !elem_of_list_to_set.
        split; [|tauto]. intros [[->|?] ?]; tauto. }
      lia.
Qed.

Lemma jaccard_nonnegative (X Y : gset jsstring) : (0 <= jaccard X Y)%Q.
Proof.
  unfold jaccard. cbv zeta.
  pose proof (subseteq_size (X ∩ Y) X (intersection_subseteq_l X Y)) as Hle.
  set (common := Z.of_nat (size (X ∩ Y))).
  set (d := Z.of_nat (size X) + Z.of_nat (size Y) - common).
  assert (0 <= common) by (unfold common; lia).
  assert (0 <= d) by (unfold d, common; lia).
  apply Qle_shift_div_l.
  - change 0%Q with (inject_Z 0). rewrite <- Zlt_Qlt.
    destruct (Z.eqb_spec d 0); lia.
  - rewrite Qmult_0_l. change 0%Q with (inject_Z 0). by rewrite <- Zle_Qle.
Qed.

Lemma orElse_nonzero (x d : Z) : d <> 0 -> orElse x d <> 0.
Proof. unfold orElse. by destruct (Z.eqb_spec x 0). Qed.

(** The division of [calculateScore] is never a division by 0, so its
    JavaScript value is the finite number the rational stands for. *)
Lemma calculateScoreNumber_finite (queryTokens chunkTokens : list jsstring) :
  calculateScoreNumber queryTokens chunkTokens =
  Finite (calculateScore queryTokens chunkTokens).
Proof.
  unfold calculateScoreNumber, calculateScore, divide. cbv zeta.
  destruct (Z.eqb_spec
    (orElse (len queryTokens + len chunkTokens - countOverlap chunkTokens queryTokens 0) 1)
    0) as [H0|_]; [|done].
  by apply orElse_nonzero in H0.
Qed.

(** C5.  The score of a chunk text against a query is
    [|Q ∩ C| / (|Q| + |C| - |Q ∩ C|)] over the token sets [Q] and [C] of
    the two texts (lower-cased, stripped of what is neither a word
    character nor white space, split on white-space runs, tokens of length
    at most 2 dropped, de-duplicated), with the divisor 1 in place of 0.
    The [Set]s of the source hold exactly those tokens, once each; the
    counter of the loop is [|Q ∩ C|]; the divisor used is at least 1, so
    the JavaScript quotient is a finite number, never negative.  The
    denominator is 0 only when both sets are empty: there the quotient
    without the substitution would be NaN, the divisor used is 1 and the
    score is 0. *)
Theorem C5_score_is_jaccard (query text : jsstring) :
  let overlap := countOverlap (tokenize text) (tokenize query) 0 in
  let denominator := len (tokenize query) + len (tokenize text) - overlap in
  calculateScoreNumber (tokenize query) (tokenize text) =
    Finite (jaccard (tokenSet query) (tokenSet text)) /\
  calculateScore (tokenize query) (tokenize text) =
    jaccard (tokenSet query) (tokenSet text) /\
  (NoDup (tokenize query) /\ list_to_set (tokenize query) = tokenSet query) /\
  (NoDup (tokenize text) /\ list_to_set (tokenize text) = tokenSet text) /\
  overlap = Z.of_nat (size (tokenSet query ∩ tokenSet text)) /\
  denominator =
    Z.of_nat (size (tokenSet query)) + Z.of_nat (size (tokenSet text))
      - Z.of_nat (size (tokenSet query ∩ tokenSet text)) /\
  1 <= orElse denominator 1 /\
  (0 <= calculateScore (tokenize query) (tokenize text))%Q /\
  (Z.of_nat (size (tokenSet query)) + Z.of_nat (size (tokenSet text))
     - Z.of_nat (size (tokenSet query ∩ tokenSet text)) = 0 ->
   tokenSet query = ∅ /\ tokenSet text = ∅ /\
   divide overlap denominator = NaN /\
   orElse denominator 1 = 1 /\
   calculateScoreNumber (tokenize query) (tokenize text) =
     Finite (inject_Z 0 / inject_Z 1)%Q /\
   (calculateScore (tokenize query) (tokenize text) == 0)%Q).
Proof.
  cbv zeta.
  assert (countOverlap (tokenize text) (tokenize query) 0 =
          Z.of_nat (size (tokenSet query ∩ tokenSet text))) as Hoverlap.
  { rewrite (countOverlap_spec (tokenize text) (tokenize query) 0 (newSet_NoDup _)).
    by rewrite !tokenize_tokenSet, Z.add_0_l. }
  assert (calculateScore (tokenize query) (tokenize text) =
          jaccard (tokenSet query) (tokenSet text)) as Hscore.
  { unfold calculateScore, jaccard, orElse. cbv zeta.
    by rewrite Hoverlap, !tokenize_size. }
  pose proof (subseteq_size _ _
                (intersection_subseteq_l (tokenSet query) (tokenSet text))) as Hq.
  pose proof (subseteq_size _ _
                (intersection_subseteq_r (tokenSet query) (tokenSet text))) as Ht.
  rewrite calculateScoreNumber_finite, Hscore, Hoverlap, !tokenize_size.
  split; [done|]. split; [done|].
  split; [split; [apply newSet_NoDup|apply tokenize_tokenSet]|].
  split; [split; [apply newSet_NoDup|apply tokenize_tokenSet]|].
  split; [done|]. split; [done|].
  split; [unfold orElse; match goal with |- context [?d =? 0] =>
            destruct (Z.eqb_spec d 0) end; lia|].
  split; [apply jaccard_nonnegative|].
  intros Hzero.
  assert (size (tokenSet query) = 0%nat) as HX by lia.
  assert (size (tokenSet text) = 0%nat) as HY by lia.
  assert (size (tokenSet query ∩ tokenSet text) = 0%nat) as HXY by lia.
  rewrite Hzero, HXY.
  apply size_empty_inv in HX, HY. apply leibniz_equiv in HX, HY.
  split; [done|]. split; [done|].
  split; [done|]. split; [done|].
  rewrite HX, HY. split; [|done].
  unfold jaccard. cbv zeta. by rewrite (idemp_L (∩) ∅), size_empty.
Qed.

(** Scenario B: "connection refused port 8080" against "MySQL connection
    pooling and timeouts" has 4 and 5 tokens, 1 in common; and two empty
    texts meet the zero denominator. *)
Lemma C5_score_is_jaccard_witness :
  calculateScoreNumber (tokenize (lit "connection refused port 8080"))
      (tokenize (lit "MySQL connection pooling and timeouts")) = Finite (1 # 8)%Q /\
  Z.of_nat (size (tokenSet [])) + Z.of_nat (size (tokenSet []))
     - Z.of_nat (size (tokenSet [] ∩ tokenSet [])) = 0 /\
  divide (countOverlap (tokenize []) (tokenize []) 0)
         (len (tokenize []) + len (tokenize [])
            - countOverlap (tokenize []) (tokenize []) 0) = NaN /\
  calculateScoreNumber (tokenize []) (tokenize []) = Finite (inject_Z 0 / inject_Z 1)%Q /\
  (calculateScore (tokenize []) (tokenize []) == 0)%Q.
Proof.
  split; [vm_compute; reflexivity|].
  split; [vm_compute; reflexivity|].
  pose proof (C5_score_is_jaccard [] []) as H. cbv zeta in H.
  destruct H as (_ & _ & _ & _ & _ & _ & _ & _ & H).
  destruct H as (_ & _ & Hnan & _ & Hnum & Hzero); [vm_compute; reflexivity|].
  split; [exact Hnan|]. split; [exact Hnum|exact Hzero].
Defined.

(** ** The retriever: the claims *)

Lemma scoreOf_empty_query (c : DocumentChunk) : (scoreOf [] c == 0)%Q.
Proof.
  unfold scoreOf, calculateScore. cbv zeta.
  change (tokenize []) with (@nil jsstring). cbn [countOverlap].
  unfold Qdiv. apply Qmult_0_l.
Qed.

(** C6.  The chunks [retrieveRelevantChunks] returns are in order of
    non-increasing score, and those of any one score are, in the same
    order, the first of the input chunks of that score; with the empty
    query every chunk scores 0 and [topK = 3] returns the first three input
    chunks as they stand. *)
Theorem C6_ranking_is_sorted_and_stable (query : jsstring)
    (allChunks : list DocumentChunk) (topK : Z) :
  StronglySorted (fun a b => (scoreOf query b <= scoreOf query a)%Q)
    (retrieveRelevantChunks query allChunks topK) /\
  (forall s,
     List.filter (fun c => Qeq_bool (scoreOf query c) s)
       (retrieveRelevantChunks query allChunks topK)
     `prefix_of` List.filter (fun c => Qeq_bool (scoreOf query c) s) allChunks) /\
  Forall (fun c => (scoreOf [] c == 0)%Q) allChunks /\
  retrieveRelevantChunks [] allChunks 3 = take 3 allChunks.
Proof.
  rewrite !retrieveRelevantChunks_sorted_prefix, !slice_from_0.
  split; [|split; [|split]].
  - set (n := Z.to_nat _).
    pose proof (sort_sorted (scoreOf query) allChunks) as Hsorted.
    rewrite <- (take_drop n (sort _ allChunks)) in Hsorted.
    by apply StronglySorted_app_1_l in Hsorted.
  - intros s. set (n := Z.to_nat _).
    rewrite <- (sort_filter (scoreOf query) s allChunks).
    rewrite <- (take_drop n (sort _ allChunks)) at 2.
    rewrite List.filter_app. by eexists.
  - apply Forall_forall. intros c _. apply scoreOf_empty_query.
  - rewrite (sort_all_equal (scoreOf []) 0).
    + change (3 <? 0) with false. cbv iota.
      destruct (Z.le_ge_cases 3 (len allChunks)) as [Hle|Hge].
      * by rewrite Z.min_l.
      * rewrite Z.min_r by done. unfold len in *.
        rewrite !take_ge; [done|lia|lia].
    + apply Forall_forall. intros c _. apply scoreOf_empty_query.
Qed.

(** C7.  [retrieveRelevantChunks] is a total function; on the empty
    collection it returns the empty list for every query and [topK], for
    [topK = 0] it returns the empty list, and for every [topK >= 0] it
    returns [min(topK, number of chunks)] chunks. *)
Theorem C7_retrieve_total_and_length (query : jsstring)
    (allChunks : list DocumentChunk) (topK : Z) :
  retrieveRelevantChunks query [] topK = [] /\
  retrieveRelevantChunks query allChunks 0 = [] /\
  (0 <= topK ->
   len (retrieveRelevantChunks query allChunks topK) = Z.min topK (len allChunks)).
Proof.
  split; [done|].
  rewrite !retrieveRelevantChunks_sorted_prefix, !slice_from_0.
  split.
  - change (0 <? 0) with false. cbv iota.
    replace (Z.min 0 _) with 0 by (unfold len; lia). done.
  - intros Hk. destruct (Z.ltb_spec topK 0); [lia|].
    unfold len. rewrite length_take, !sort_length. lia.
Qed.

Lemma C7_retrieve_total_and_length_witness :
  0 <= 5 /\
  len (retrieveRelevantChunks (lit "connection refused port 8080") scenarioB 5) =
  Z.min 5 (len scenarioB).
Proof.
  split; [lia|].
  apply (C7_retrieve_total_and_length (lit "connection refused port 8080") scenarioB 5).
  lia.
Defined.

(** * Further properties of the code *)

(** ** The splitter: chunks are parts of the text *)

Lemma isSubstring_refl (t : jsstring) : isSubstring t t.
Proof. exists [], []. by rewrite app_nil_r. Qed.

Lemma isSubstring_trans (a b c : jsstring) :
  isSubstring a b -> isSubstring b c -> isSubstring a c.
Proof.
  intros (p & q & ->) (p' & q' & ->).
  exists (p' ++ p), (q ++ q'). by rewrite <- !app_assoc.
Qed.

Lemma isSubstring_middle (p c q : jsstring) : isSubstring c (p ++ c ++ q).
Proof. by exists p, q. Qed.

Lemma slice_isSubstring (s : jsstring) (i j : Z) : isSubstring (slice s i j) s.
Proof.
  unfold slice. cbv zeta.
  match goal with |- isSubstring (take ?n (drop ?m s)) s =>
    exists (take m s), (drop n (drop m s)) end.
  by rewrite take_drop, take_drop.
Qed.

Lemma hardSplitLoop_substrings chunkSize chunkOverlap fuel :
  forall currentText i hardChunks r,
  Forall (fun c => isSubstring c currentText) hardChunks ->
  hardSplitLoop chunkSize chunkOverlap fuel currentText i hardChunks = Some r ->
  Forall (fun c => isSubstring c currentText) r.
Proof.
  induction fuel as [|fuel IH]; intros t i acc r Hacc; simpl; [discriminate|].
  destruct (i <? len t).
  - apply IH. apply Forall_app; split; [done|].
    constructor; [apply slice_isSubstring|constructor].
  - by intros [= <-].
Qed.

Section Substrings.
Variable chunkSize : Z.

Lemma recombineLoop_substrings separator (text : jsstring) :
  forall splits goodSplits currentChunk,
  Forall (fun c => isSubstring c text) goodSplits ->
  isSubstring (currentChunk ++ concat (map (app separator) splits)) text ->
  Forall (fun c => isSubstring c text)
    (recombineLoop chunkSize separator splits goodSplits currentChunk).
Proof.
  induction splits as [|sp rest IH]; intros good cur Hgood Hcur.
  - simpl in *. rewrite app_nil_r in Hcur.
    destruct cur; simpl; [done|]. apply Forall_app; split; [done|].
    by repeat constructor.
  - cbn [map concat] in Hcur.
    assert (isSubstring cur text) as Hc.
    { eapply isSubstring_trans; [|exact Hcur].
      exists [], ((separator ++ sp) ++ concat (map (app separator) rest)). done. }
    assert (isSubstring (sp ++ concat (map (app separator) rest)) text) as Hsp.
    { eapply isSubstring_trans; [|exact Hcur].
      exists (cur ++ separator), []. rewrite app_nil_r. by rewrite <- !app_assoc. }
    cbn [recombineLoop]. cbv zeta.
    destruct (Z.ltb_spec 0 (len cur)) as [Hpos|Hzero].
    + match goal with |- context [len ?pc <? chunkSize] =>
        destruct (len pc <? chunkSize) end.
      * apply IH; [done|]. by rewrite <- !app_assoc in *.
      * apply IH; [|done]. destruct cur; simpl; [done|].
        apply Forall_app; split; [done|]. by repeat constructor.
    + match goal with |- context [len ?pc <? chunkSize] =>
        destruct (len pc <? chunkSize) end.
      * by apply IH.
      * apply IH; [|done]. destruct cur; simpl; [done|].
        apply Forall_app; split; [done|]. by repeat constructor.
Qed.

Lemma processLoop_substrings recur (text : jsstring) :
  forall goodSplits processedSplits r,
  (forall c x, recur c = Some x -> Forall (fun y => isSubstring y c) x) ->
  Forall (fun c => isSubstring c text) goodSplits ->
  Forall (fun c => isSubstring c text) processedSplits ->
  processLoop chunkSize recur goodSplits processedSplits = Some r ->
  Forall (fun c => isSubstring c text) r.
Proof.
  induction goodSplits as [|c rest IH]; intros acc r Hrec Hgood Hacc; simpl.
  - by intros [= <-].
  - inversion Hgood as [|? ? Hc Hrest]; subst.
    destruct (chunkSize <? len c).
    + destruct (recur c) as [x|] eqn:Hx; [|discriminate].
      apply IH; [done|done|]. apply Forall_app; split; [done|].
      eapply Forall_impl; [exact (Hrec c x Hx)|].
      intros y Hy. exact (isSubstring_trans y c text Hy Hc).
    + apply IH; [done|done|]. apply Forall_app; split; [done|]. by repeat constructor.
Qed.

Lemma level_splits_substrings (text separator : jsstring) :
  Forall (fun c => isSubstring c text)
    (recombineLoop chunkSize separator
       (if bool_decide (separator = []) then arrayFrom text else split text separator)
       [] []).
Proof.
  destruct (bool_decide_reflect (separator = [])) as [->|Hne].
  - pose proof (arrayFrom_concat text) as Hcat.
    destruct (arrayFrom text) as [|p rest]; [constructor|].
    rewrite recombineLoop_first. apply recombineLoop_substrings; [constructor|].
    replace (map (app []) rest) with rest by (by rewrite map_id).
    simpl in Hcat. rewrite Hcat. apply isSubstring_refl.
  - destruct (splitGo_join separator Hne text [] 0%nat ltac:(lia))
      as (p & rest & Heq & Hjoin).
    unfold split. rewrite Heq, recombineLoop_first.
    apply recombineLoop_substrings; [constructor|].
    rewrite Hjoin. apply isSubstring_refl.
Qed.

Lemma splitTextWith_substrings fallback fuel : forall currentText separatorIndex r,
  (forall f t x, fallback f t = Some x -> Forall (fun y => isSubstring y t) x) ->
  splitTextWith chunkSize fallback fuel currentText separatorIndex = Some r ->
  Forall (fun c => isSubstring c currentText) r.
Proof.
  induction fuel as [|fuel IH]; intros t idx r Hfb; [discriminate|].
  rewrite splitTextWith_S.
  destruct (len t <=? chunkSize).
  { intros [= <-]. repeat constructor. apply isSubstring_refl. }
  destruct (length separators <=? idx)%nat; [apply Hfb|].
  cbv zeta. apply processLoop_substrings; [|apply level_splits_substrings|constructor].
  intros c x Hx. by eapply IH.
Qed.

End Substrings.

(** X1.  Whatever the configuration, every chunk [recursiveCharacterSplit]
    returns is a contiguous part of the input text. *)
Theorem X1_chunks_are_substrings (text : jsstring) (chunkSize chunkOverlap : Z)
    (fuel : nat) (chunks : list jsstring) :
  recursiveCharacterSplit fuel text chunkSize chunkOverlap = Some chunks ->
  Forall (fun c => isSubstring c text) chunks.
Proof.
  apply splitTextWith_substrings. intros f t x.
  apply hardSplitLoop_substrings. constructor.
Qed.

Lemma X1_chunks_are_substrings_witness :
  recursiveCharacterSplit 8 (lit "restart the pod
then check the logs") 12 3 =
    Some [lit "restart the"; lit "pod"; lit "then check"; lit "the logs"] /\
  Forall (fun c => isSubstring c (lit "restart the pod
then check the logs"))
    [lit "restart the"; lit "pod"; lit "then check"; lit "the logs"].
Proof.
  split; [reflexivity|].
  apply (X1_chunks_are_substrings _ 12 3 8). reflexivity.
Defined.

(** ** The splitter: no empty chunk *)

Section NonEmptyChunks.
Variables chunkSize chunkOverlap : Z.

Lemma slice_window_nonempty (s : jsstring) (i : Z) :
  1 <= chunkSize -> 0 <= i < len s -> slice s i (i + chunkSize) <> [].
Proof.
  intros Hcs Hi Hnil. apply (f_equal length) in Hnil.
  unfold slice, len in *. cbv zeta in Hnil.
  destruct (Z.ltb_spec i 0); [lia|].
  destruct (Z.ltb_spec (i + chunkSize) 0); [lia|].
  rewrite length_take, length_drop in Hnil. simpl in Hnil. lia.
Qed.

Lemma hardSplitLoop_nonempty fuel : forall currentText i hardChunks r,
  1 <= chunkSize -> 0 <= chunkSize - chunkOverlap -> 0 <= i ->
  Forall (fun c => c <> []) hardChunks ->
  hardSplitLoop chunkSize chunkOverlap fuel currentText i hardChunks = Some r ->
  Forall (fun c => c <> []) r.
Proof.
  induction fuel as [|fuel IH]; intros t i acc r Hcs Hstep Hi Hacc; simpl; [discriminate|].
  destruct (Z.ltb_spec i (len t)).
  - apply IH; [done|done|lia|]. apply Forall_app; split; [done|].
    constructor; [|constructor]. apply slice_window_nonempty; lia.
  - by intros [= <-].
Qed.

Lemma processLoop_nonempty recur : forall goodSplits processedSplits r,
  (forall c x, c <> [] -> recur c = Some x -> Forall (fun y => y <> []) x) ->
  Forall (fun c => c <> []) goodSplits ->
  Forall (fun c => c <> []) processedSplits ->
  processLoop chunkSize recur goodSplits processedSplits = Some r ->
  Forall (fun c => c <> []) r.
Proof.
  induction goodSplits as [|c rest IH]; intros acc r Hrec Hgood Hacc; simpl.
  - by intros [= <-].
  - inversion Hgood as [|? ? Hc Hrest]; subst.
    destruct (chunkSize <? len c).
    + destruct (recur c) as [x|] eqn:Hx; [|discriminate].
      apply IH; [done|done|]. apply Forall_app; split; [done|].
      exact (Hrec c x Hc Hx).
    + apply IH; [done|done|]. apply Forall_app; split; [done|]. by repeat constructor.
Qed.

Lemma splitTextWith_nonempty fallback fuel : forall currentText separatorIndex r,
  (forall f t x, fallback f t = Some x -> Forall (fun y => y <> []) x) ->
  currentText <> [] ->
  splitTextWith chunkSize fallback fuel currentText separatorIndex = Some r ->
  Forall (fun c => c <> []) r.
Proof.
  induction fuel as [|fuel IH]; intros t idx r Hfb Ht; [discriminate|].
  rewrite splitTextWith_S.
  destruct (len t <=? chunkSize).
  { intros [= <-]. by repeat constructor. }
  destruct (length separators <=? idx)%nat; [apply Hfb|].
  cbv zeta. apply processLoop_nonempty;
    [|apply recombineLoop_truthy; constructor|constructor].
  intros c x Hc Hx. by eapply IH.
Qed.

End NonEmptyChunks.

(** X2.  For a valid configuration and a non-empty text no returned chunk
    is the empty string; the empty text is returned as the single chunk
    [""]. *)
Theorem X2_no_empty_chunk (text : jsstring) (chunkSize chunkOverlap : Z) (fuel : nat) :
  validConfiguration chunkSize chunkOverlap ->
  (forall chunks, text <> [] ->
     recursiveCharacterSplit fuel text chunkSize chunkOverlap = Some chunks ->
     Forall (fun c => c <> []) chunks) /\
  recursiveCharacterSplit (S fuel) [] chunkSize chunkOverlap = Some [[]].
Proof.
  intros [Hcs Hco]. split.
  - intros chunks Ht. apply splitTextWith_nonempty; [|done].
    intros f t x. apply hardSplitLoop_nonempty; [lia|lia|lia|constructor].
  - unfold recursiveCharacterSplit, splitText. rewrite splitTextWith_S.
    change (len (@nil Z)) with 0. destruct (Z.leb_spec 0 chunkSize); [done|lia].
Qed.

Lemma X2_no_empty_chunk_witness :
  validConfiguration 4 1 /\
  lit "a  b   cdefgh " <> [] /\
  recursiveCharacterSplit 8 (lit "a  b   cdefgh ") 4 1 =
    Some [lit "a "; lit "b  "; lit "cde"; lit "fgh"] /\
  Forall (fun c => c <> []) [lit "a "; lit "b  "; lit "cde"; lit "fgh"].
Proof.
  split; [unfold validConfiguration; lia|]. split; [done|].
  split; [reflexivity|].
  apply (X2_no_empty_chunk (lit "a  b   cdefgh ") 4 1 8);
    [unfold validConfiguration; lia|done|reflexivity].
Defined.

(** ** The splitter: a text without separators *)

Section SeparatorFree.
Variable chunkSize : Z.

Lemma splitGo_absent (a : Z) (sep : jsstring) : forall s piece,
  Forall (fun c => c <> a) s ->
  splitGo (a :: sep) s piece 0 = [piece ++ s].
Proof.
  induction s as [|c s IH]; intros piece Hs; simpl.
  - by rewrite app_nil_r.
  - inversion Hs as [|? ? Hc Hrest]; subst.
    destruct (Z.eqb_spec a c) as [->|_]; [done|]. simpl.
    rewrite IH by done. by rewrite <- app_assoc.
Qed.

Lemma recombineLoop_single separator (t : jsstring) :
  t <> [] -> recombineLoop chunkSize separator [t] [] [] = [t].
Proof.
  intros Ht. simpl. destruct (len t <? chunkSize); by destruct t.
Qed.

Lemma arrayFrom_units (s : jsstring) :
  hasSurrogatePair s = false -> arrayFrom s = map (fun c => [c]) s.
Proof.
  induction s as [|c|c d s IH1 IH2] using list_pair_ind; intros H; [done|done|].
  change (hasSurrogatePair (c :: d :: s)) with
    ((isHighSurrogate c && isLowSurrogate d) || hasSurrogatePair (d :: s)) in H.
  apply orb_false_iff in H as [Hcd Hrest].
  change (arrayFrom (c :: d :: s)) with
    (if isHighSurrogate c && isLowSurrogate d
     then [c; d] :: arrayFrom s else [c] :: arrayFrom (d :: s)).
  rewrite Hcd, (IH2 Hrest). done.
Qed.

(** At the code-point level every chunk but the last is filled to
    [chunkSize - 1] code units, never to [chunkSize]. *)
Lemma recombineLoop_units : forall (t : jsstring) goodSplits currentChunk,
  2 <= chunkSize -> len currentChunk <= chunkSize - 1 ->
  exists new,
    recombineLoop chunkSize [] (map (fun c => [c]) t) goodSplits currentChunk
      = goodSplits ++ new /\
    concat new = currentChunk ++ t /\
    forall i c, new !! i = Some c ->
      1 <= len c <= chunkSize - 1 /\
      ((S i < length new)%nat -> len c = chunkSize - 1).
Proof.
  induction t as [|u t IH]; intros good cur Hcs Hcur.
  - destruct cur as [|v cur].
    + exists []. simpl. rewrite app_nil_r. split; [done|]. split; [done|]. done.
    + exists [v :: cur]. simpl. rewrite !app_nil_r. split; [done|]. split; [done|].
      intros [|i] c; [|done]. intros [= <-]. split; [|simpl; lia].
      unfold len in *. simpl in *. lia.
  - cbn [map recombineLoop]. cbv zeta.
    assert (len (if 0 <? len cur then cur ++ [] ++ [u] else [u]) = len cur + 1) as Hpot.
    { destruct (Z.ltb_spec 0 (len cur)) as [?|Hz].
      - unfold len. rewrite !length_app. simpl. lia.
      - destruct cur; [done|]. unfold len in Hz. simpl in Hz. lia. }
    assert ((if 0 <? len cur then cur ++ [] ++ [u] else [u]) = cur ++ [u]) as Hpc.
    { destruct (Z.ltb_spec 0 (len cur)) as [?|Hz]; [done|].
      destruct cur; [done|]. unfold len in Hz. simpl in Hz. lia. }
    destruct (Z.ltb_spec (len (if 0 <? len cur then cur ++ [] ++ [u] else [u])) chunkSize)
      as [Hlt|Hge].
    + destruct (IH good (if 0 <? len cur then cur ++ [] ++ [u] else [u]) Hcs ltac:(lia))
        as (new & Heq & Hcat & Hshape).
      exists new. split; [done|]. split; [|done].
      rewrite Hcat, Hpc. by rewrite <- app_assoc.
    + assert (len cur = chunkSize - 1) as Hfull by lia.
      destruct cur as [|v cur]; [unfold len in Hfull; simpl in Hfull; lia|].
      cbn [truthy].
      destruct (IH (good ++ [v :: cur]) [u] Hcs ltac:(unfold len; simpl; lia))
        as (new & Heq & Hcat & Hshape).
      exists ((v :: cur) :: new). split; [by rewrite Heq, <- app_assoc|].
      split; [cbn [concat]; by rewrite Hcat|].
      intros [|i] c.
      * intros [= <-]. split; [lia|done].
      * intros Hc. destruct (Hshape i c Hc) as [H1 H2]. split; [done|].
        intros Hi. apply H2. simpl in Hi. lia.
Qed.

Lemma processLoop_all_fit recur : forall goodSplits processedSplits,
  Forall (fun c => len c <= chunkSize) goodSplits ->
  processLoop chunkSize recur goodSplits processedSplits =
    Some (processedSplits ++ goodSplits).
Proof.
  induction goodSplits as [|c rest IH]; intros acc Hfit; simpl.
  - by rewrite app_nil_r.
  - inversion Hfit as [|? ? Hc Hrest]; subst.
    destruct (Z.ltb_spec chunkSize (len c)); [lia|].
    rewrite IH by done. by rewrite <- app_assoc.
Qed.

End SeparatorFree.

Lemma splitTextWith_passes_level chunkSize fallback fuel (text : jsstring)
    (separatorIndex : nat) :
  (separatorIndex < 3)%nat -> 0 <= chunkSize < len text ->
  Forall (fun c => isSeparatorUnit c = false) text ->
  splitTextWith chunkSize fallback (S fuel) text separatorIndex =
  splitTextWith chunkSize fallback fuel text (S separatorIndex).
Proof.
  intros Hidx [Hcs Hlen] Hfree. rewrite splitTextWith_S.
  destruct (Z.leb_spec (len text) chunkSize); [lia|].
  destruct (Nat.leb_spec (length separators) separatorIndex) as [Hge|_];
    [simpl in Hge; lia|].
  assert (text <> []) as Hne.
  { intros ->. unfold len in Hlen. simpl in Hlen. lia. }
  assert (exists a sep, nth separatorIndex separators [] = a :: sep /\
            (a = 10 \/ a = 32)) as (a & sep & Hsep & Ha).
  { destruct separatorIndex as [|[|[|?]]]; [| | |lia].
    - exists 10, [10]. by split; [|left].
    - exists 10, []. by split; [|left].
    - exists 32, []. by split; [|right]. }
  cbv zeta. rewrite Hsep.
  change (bool_decide (a :: sep = [])) with false. cbv iota.
  unfold split. rewrite splitGo_absent.
  - cbn [app]. rewrite recombineLoop_single by done. simpl.
    destruct (Z.ltb_spec chunkSize (len text)); [|lia].
    by destruct (splitTextWith chunkSize fallback fuel text (S separatorIndex)).
  - eapply Forall_impl; [exact Hfree|]. intros c Hc ->.
    unfold isSeparatorUnit in Hc. destruct Ha as [->| ->]; done.
Qed.

Lemma hasSurrogatePair_replicate (n : nat) (c : Z) :
  hasSurrogatePair (replicate n c) = false.
Proof.
  induction n as [|n IH]; [done|].
  destruct n as [|n]; [done|].
  change (hasSurrogatePair (replicate (S (S n)) c)) with
    ((isHighSurrogate c && isLowSurrogate c) || hasSurrogatePair (replicate (S n) c)).
  rewrite IH, orb_false_r. unfold isHighSurrogate, isLowSurrogate.
  destruct (Z.leb_spec 0xD800 c), (Z.leb_spec c 0xDBFF),
    (Z.leb_spec 0xDC00 c), (Z.leb_spec c 0xDFFF); simpl; try done; lia.
Qed.

(** C4, as the code has it.  For an input of 1000 identical characters,
    each a single UTF-16 code unit other than the line feed and the space,
    [recursiveCharacterSplit] with [chunkSize = 100] and [chunkOverlap = 0]
    returns exactly 11 chunks: ten of length 99 followed by one of length
    10. *)
Theorem C4_thousand_identical_characters (c : Z) (fuel : nat) :
  isSeparatorUnit c = false -> (4 <= fuel)%nat ->
  recursiveCharacterSplit fuel (replicate 1000 c) 100 0 =
    Some (replicate 10 (replicate 99 c) ++ [replicate 10 c]).
Proof.
  intros Hc Hfuel.
  do 4 (destruct fuel as [|fuel]; [lia|]).
  assert (len (replicate 1000 c) = 1000) as Hlen
    by (unfold len; by rewrite length_replicate).
  assert (Forall (fun u => isSeparatorUnit u = false) (replicate 1000 c)) as Hfree
    by (by apply Forall_replicate).
  unfold recursiveCharacterSplit, splitText.
  rewrite !splitTextWith_passes_level by (done || lia).
  rewrite splitTextWith_S, Hlen.
  change (1000 <=? 100) with false. cbv iota.
  change (length separators <=? 3)%nat with false. cbv iota zeta.
  change (nth 3 separators []) with (@nil Z).
  change (bool_decide (@nil Z = [])) with true. cbv iota.
  rewrite (arrayFrom_units _ (hasSurrogatePair_replicate 1000 c)).
  vm_compute. reflexivity.
Qed.

Lemma C4_thousand_identical_characters_witness :
  isSeparatorUnit 97 = false /\ (4 <= 8)%nat /\
  recursiveCharacterSplit 8 (replicate 1000 97) 100 0 =
    Some (replicate 10 (replicate 99 97) ++ [replicate 10 97]).
Proof.
  split; [reflexivity|]. split; [lia|].
  apply (C4_thousand_identical_characters 97 8); [reflexivity|lia].
Defined.

(** X3.  A text without line feeds, spaces and surrogate pairs that is
    longer than [chunkSize >= 2] is cut, whatever [chunkOverlap] is, into
    consecutive pieces of exactly [chunkSize - 1] code units, the last one
    possibly shorter: no chunk reaches [chunkSize]. *)
Theorem X3_separator_free_text (text : jsstring) (chunkSize chunkOverlap : Z)
    (fuel : nat) :
  2 <= chunkSize -> chunkSize < len text ->
  Forall (fun c => isSeparatorUnit c = false) text ->
  hasSurrogatePair text = false -> (4 <= fuel)%nat ->
  exists chunks,
    recursiveCharacterSplit fuel text chunkSize chunkOverlap = Some chunks /\
    concat chunks = text /\
    forall i c, chunks !! i = Some c ->
      1 <= len c <= chunkSize - 1 /\
      ((S i < length chunks)%nat -> len c = chunkSize - 1).
Proof.
  intros Hcs Hlen Hfree Hbmp Hfuel.
  do 4 (destruct fuel as [|fuel]; [lia|]).
  unfold recursiveCharacterSplit, splitText.
  rewrite !splitTextWith_passes_level by (done || lia).
  rewrite splitTextWith_S.
  destruct (Z.leb_spec (len text) chunkSize); [lia|].
  change (length separators <=? 3)%nat with false. cbv iota zeta.
  change (nth 3 separators []) with (@nil Z).
  change (bool_decide (@nil Z = [])) with true. cbv iota.
  rewrite (arrayFrom_units text Hbmp).
  destruct (recombineLoop_units chunkSize text [] [] Hcs ltac:(unfold len; simpl; lia))
    as (new & Heq & Hcat & Hshape).
  rewrite Heq. cbn [app].
  exists new. split; [|done].
  rewrite processLoop_all_fit; [done|].
  apply Forall_forall. intros c Hc.
  apply list_elem_of_lookup in Hc as [i Hi].
  destruct (Hshape i c Hi) as [? _]. lia.
Qed.

Lemma X3_separator_free_text_witness :
  2 <= 4 /\ 4 < len (lit "CrashLoopBackOff") /\
  Forall (fun c => isSeparatorUnit c = false) (lit "CrashLoopBackOff") /\
  hasSurrogatePair (lit "CrashLoopBackOff") = false /\ (4 <= 4)%nat /\
  exists chunks,
    recursiveCharacterSplit 4 (lit "CrashLoopBackOff") 4 0 = Some chunks /\
    concat chunks = lit "CrashLoopBackOff" /\
    forall i c, chunks !! i = Some c ->
      1 <= len c <= 4 - 1 /\
      ((S i < length chunks)%nat -> len c = 4 - 1).
Proof.
  split; [lia|]. split; [vm_compute; reflexivity|].
  split; [by repeat constructor|]. split; [reflexivity|]. split; [lia|].
  apply (X3_separator_free_text (lit "CrashLoopBackOff") 4 0 4);
    [lia|vm_compute; reflexivity|by repeat constructor|reflexivity|lia].
Defined.

(** ** createChunksFromDoc: identifiers and contents *)

Lemma digitsGo_value fuel : forall n acc,
  (n < fuel)%nat ->
  fold_left (fun a d => (10 * a + Z.to_nat (d - 48))%nat) (digitsGo fuel n acc) 0%nat =
  fold_left (fun a d => (10 * a + Z.to_nat (d - 48))%nat) acc n.
Proof.
  induction fuel as [|fuel IH]; intros n acc Hn; [lia|].
  cbn [digitsGo]. cbv zeta.
  destruct (Nat.ltb_spec n 10) as [Hsmall|Hbig].
  - cbn [fold_left]. f_equal. rewrite Nat.mod_small by done. lia.
  - rewrite IH.
    + cbn [fold_left]. f_equal.
      pose proof (Nat.div_mod_eq n 10). lia.
    + pose proof (Nat.div_mod_eq n 10).
      pose proof (Nat.mod_upper_bound n 10). lia.
Qed.

Lemma numberToString_value (n : nat) : digitsValue (numberToString n) = n.
Proof. unfold digitsValue, numberToString. rewrite digitsGo_value; [done|lia]. Qed.

Lemma numberToString_inj (m n : nat) : numberToString m = numberToString n -> m = n.
Proof.
  intros H. apply (f_equal digitsValue) in H. by rewrite !numberToString_value in H.
Qed.

(** X4.  The identifiers [createChunksFromDoc] assigns within a document
    are pairwise distinct, and the position of a chunk can be read back
    from its identifier: the digits after [{documentId}-chunk-] are its
    index. *)
Theorem X4_chunk_identifiers_distinct (docId content : jsstring) (fuel : nat)
    (chunks : list DocumentChunk) :
  createChunksFromDoc fuel docId content = Some chunks ->
  NoDup (map id chunks) /\
  forall idx c, chunks !! idx = Some c ->
    digitsValue (drop (length (docId ++ lit "-chunk-")) (id c)) = idx.
Proof.
  unfold createChunksFromDoc.
  destruct (recursiveCharacterSplit fuel content 500 50) as [raw|]; [|discriminate].
  intros [= <-].
  assert (forall idx c, mapChunks docId 0 raw !! idx = Some c ->
            id c = (docId ++ lit "-chunk-") ++ numberToString idx) as Hid.
  { intros idx c Hc.
    destruct (raw !! idx) as [text|] eqn:Hraw.
    - rewrite (mapChunks_lookup docId raw 0 idx text Hraw) in Hc.
      injection Hc as <-. cbn [id]. by rewrite <- app_assoc.
    - apply lookup_ge_None in Hraw. apply lookup_lt_Some in Hc.
      rewrite mapChunks_length in Hc. lia. }
  split.
  - apply NoDup_alt. intros i j x Hi Hj.
    apply list_lookup_fmap_Some in Hi as (ci & -> & Hi).
    apply list_lookup_fmap_Some in Hj as (cj & Heq & Hj).
    rewrite (Hid i ci Hi), (Hid j cj Hj) in Heq.
    apply app_inv_head in Heq. by apply numberToString_inj.
  - intros idx c Hc. rewrite (Hid idx c Hc), drop_app_length.
    apply numberToString_value.
Qed.

Lemma X4_chunk_identifiers_distinct_witness :
  createChunksFromDoc 8 (lit "doc-17") (lit "kubectl rollout restart") =
    Some restartChunks /\
  NoDup (map id restartChunks) /\
  forall idx c, restartChunks !! idx = Some c ->
    digitsValue (drop (length (lit "doc-17" ++ lit "-chunk-")) (id c)) = idx.
Proof.
  split; [reflexivity|].
  apply (X4_chunk_identifiers_distinct (lit "doc-17") (lit "kubectl rollout restart") 8).
  reflexivity.
Defined.

Lemma trimStart_suffix (s : jsstring) : exists ws, s = ws ++ trimStart s.
Proof.
  induction s as [|c s [ws IH]]; [by exists []|].
  simpl. destruct (isWhiteSpace c).
  - exists (c :: ws). simpl. by rewrite <- IH.
  - by exists [].
Qed.

Lemma trimStart_head (s : jsstring) u rest :
  trimStart s = u :: rest -> isWhiteSpace u = false.
Proof.
  induction s as [|c s IH]; [done|]. simpl.
  destruct (isWhiteSpace c) eqn:Hc; [done|]. by intros [= <- _].
Qed.

Lemma trimEnd_prefix (s : jsstring) : exists ws, s = trimEnd s ++ ws.
Proof.
  unfold trimEnd. destruct (trimStart_suffix (rev s)) as [ws Hws].
  exists (rev ws). rewrite <- rev_app_distr, <- Hws. by rewrite rev_involutive.
Qed.

Lemma trim_isSubstring (s : jsstring) : isSubstring (trim s) s.
Proof.
  unfold trim. destruct (trimStart_suffix s) as [ws1 H1].
  destruct (trimEnd_prefix (trimStart s)) as [ws2 H2].
  exists ws1, ws2. by rewrite <- H2.
Qed.

Lemma trim_first (s : jsstring) u rest :
  trim s = u :: rest -> isWhiteSpace u = false.
Proof.
  unfold trim. intros H.
  destruct (trimEnd_prefix (trimStart s)) as [ws Hws].
  rewrite H in Hws. by apply trimStart_head in Hws.
Qed.

Lemma trim_last (s : jsstring) init u :
  trim s = init ++ [u] -> isWhiteSpace u = false.
Proof.
  unfold trim, trimEnd. intros H.
  apply (f_equal (@rev Z)) in H. rewrite rev_involutive, rev_app_distr in H.
  simpl in H. by apply trimStart_head in H.
Qed.

Lemma isSubstring_length (c t : jsstring) : isSubstring c t -> len c <= len t.
Proof. intros (p & q & ->). unfold len. rewrite !length_app. lia. Qed.

(** X5.  Every chunk of [createChunksFromDoc] names the document as its
    source, and its content is a contiguous part of the document's content,
    of at most 500 code units, that neither begins nor ends with white
    space. *)
Theorem X5_chunk_contents (docId content : jsstring) (fuel : nat)
    (chunks : list DocumentChunk) :
  createChunksFromDoc fuel docId content = Some chunks ->
  Forall (fun c =>
            sourceId c = docId /\
            isSubstring (TextProcessor.content c) content /\
            len (TextProcessor.content c) <= 500 /\
            (forall u rest, TextProcessor.content c = u :: rest -> isWhiteSpace u = false) /\
            (forall init u, TextProcessor.content c = init ++ [u] -> isWhiteSpace u = false))
         chunks.
Proof.
  unfold createChunksFromDoc.
  destruct (recursiveCharacterSplit fuel content 500 50) as [raw|] eqn:Hraw;
    [|discriminate].
  intros [= <-].
  pose proof (Hsub := splitTextWith_substrings 500 _ fuel content 0 raw
    (fun f t x => hardSplitLoop_substrings 500 50 f t 0 [] x (Forall_nil_2 _)) Hraw).
  assert (Forall (fun c => len c <= 500) raw) as Hfit.
  { eapply splitTextWith_fits; [|exact Hraw].
    intros f t r Hr.
    apply (hardSplitLoop_fits 500 50 f t 0 [] r); [lia|lia|constructor|exact Hr]. }
  apply Forall_forall. intros c Hc.
  apply list_elem_of_lookup in Hc as [idx Hc].
  destruct (raw !! idx) as [text|] eqn:Htext.
  2:{ apply lookup_ge_None in Htext. apply lookup_lt_Some in Hc.
      rewrite mapChunks_length in Hc. lia. }
  rewrite (mapChunks_lookup docId raw 0 idx text Htext) in Hc. injection Hc as <-.
  cbn [sourceId TextProcessor.content].
  assert (text ∈ raw) as Hin by (apply list_elem_of_lookup; eauto).
  rewrite Forall_forall in Hsub, Hfit.
  split; [done|]. split; [|split; [|split]].
  - eapply isSubstring_trans; [apply trim_isSubstring|by apply Hsub].
  - pose proof (isSubstring_length _ _ (trim_isSubstring text)).
    specialize (Hfit text Hin). simpl in Hfit. lia.
  - apply trim_first.
  - apply trim_last.
Qed.

Lemma X5_chunk_contents_witness :
  createChunksFromDoc 8 (lit "doc-17") (lit "  kubectl rollout restart  ") =
    Some restartChunks /\
  Forall (fun c =>
            sourceId c = lit "doc-17" /\
            isSubstring (TextProcessor.content c) (lit "  kubectl rollout restart  ") /\
            len (TextProcessor.content c) <= 500 /\
            (forall u rest, TextProcessor.content c = u :: rest -> isWhiteSpace u = false) /\
            (forall init u, TextProcessor.content c = init ++ [u] -> isWhiteSpace u = false))
    restartChunks.
Proof.
  split; [reflexivity|].
  apply (X5_chunk_contents (lit "doc-17") (lit "  kubectl rollout restart  ") 8).
  reflexivity.
Defined.

(** ** The retriever: what a token looks like *)

Lemma splitWsGo_pieces (P : Z -> Prop) : forall s piece inRun,
  Forall P piece ->
  Forall (fun c => isWhiteSpace c = false -> P c) s ->
  Forall (Forall P) (splitWsGo s piece inRun).
Proof.
  induction s as [|c s IH]; intros piece inRun Hpiece Hs; simpl.
  - by repeat constructor.
  - inversion Hs as [|? ? Hc Hrest]; subst.
    destruct (isWhiteSpace c) eqn:Hws.
    + destruct inRun; [by apply IH|]. constructor; [done|]. by apply IH.
    + apply IH; [|done]. apply Forall_app; split; [done|]. repeat constructor. by apply Hc.
Qed.

Lemma lowerUnit_not_capital (u c : Z) :
  c ∈ lowerUnit u -> isWordChar c = true -> isLowerWordChar c = true.
Proof.
  unfold lowerUnit, isWordChar, isLowerWordChar.
  destruct (Z.leb_spec 65 u), (Z.leb_spec u 90); simpl;
    try (destruct (Z.eqb_spec u 0x130); [|destruct (Z.eqb_spec u 0x212A)]);
    intros Hin; repeat (apply elem_of_cons in Hin as [->|Hin]);
    try (by apply elem_of_nil in Hin); intros Hw;
    repeat match goal with
    | |- context [?a <=? ?b] => destruct (Z.leb_spec a b)
    | |- context [?a =? ?b] => destruct (Z.eqb_spec a b)
    | H : context [?a <=? ?b] |- _ => destruct (Z.leb_spec a b)
    | H : context [?a =? ?b] |- _ => destruct (Z.eqb_spec a b)
    end; simpl in *; try done; lia.
Qed.

(** X6.  Every token [tokenize] produces has at least three code units,
    all of them lower-case ASCII letters, digits or underscores. *)
Theorem X6_tokens_are_lowercase_words (text : jsstring) :
  Forall (fun tok => 3 <= len tok /\ Forall (fun c => isLowerWordChar c = true) tok)
         (tokenize text).
Proof.
  apply Forall_forall. intros tok Htok.
  unfold tokenize in Htok. apply (proj1 (newSet_elem_of _ _)) in Htok.
  apply list_elem_of_In, List.filter_In in Htok as [Hin Hlen].
  split; [destruct (Z.ltb_spec 2 (len tok)); [lia|done]|].
  apply list_elem_of_In in Hin.
  assert (Forall (Forall (fun c => isLowerWordChar c = true))
            (splitWhitespace (removePunctuation (toLowerCase text)))) as Hall.
  { apply splitWsGo_pieces; [constructor|].
    apply Forall_forall. intros c Hc Hws.
    apply list_elem_of_In, List.filter_In in Hc as [Hc Hkeep].
    rewrite Hws, orb_false_r in Hkeep.
    unfold toLowerCase in Hc.
    apply in_concat in Hc as (l & Hl & Hcl).
    apply in_map_iff in Hl as (u & <- & _).
    apply list_elem_of_In in Hcl.
    by eapply lowerUnit_not_capital. }
  rewrite Forall_forall in Hall. by apply Hall.
Qed.

(** ** The retriever: range and symmetry of the score *)

Lemma calculateScore_jaccard (query text : jsstring) :
  calculateScore (tokenize query) (tokenize text) =
  jaccard (tokenSet query) (tokenSet text).
Proof.
  unfold calculateScore, jaccard, orElse. cbv zeta.
  rewrite (countOverlap_spec (tokenize text) (tokenize query) 0 (newSet_NoDup _)).
  by rewrite !tokenize_tokenSet, !tokenize_size, Z.add_0_l.
Qed.

Lemma Qdiv_inject_eq (a d b : Z) :
  0 < d -> (inject_Z a / inject_Z d == inject_Z b)%Q <-> a = b * d.
Proof.
  intros Hd.
  assert (~ (inject_Z d == 0)%Q) as Hnz.
  { change 0%Q with (inject_Z 0). rewrite inject_Z_injective. lia. }
  rewrite <- inject_Z_injective, inject_Z_mult. split; intros H.
  - rewrite <- H. rewrite Qmult_comm. symmetry. by apply Qmult_div_r.
  - rewrite H. by apply Qdiv_mult_l.
Qed.

Lemma jaccard_sizes (X Y : gset jsstring) :
  (size (X ∩ Y) <= size X)%nat /\ (size (X ∩ Y) <= size Y)%nat.
Proof.
  split; apply subseteq_size;
    [apply intersection_subseteq_l|apply intersection_subseteq_r].
Qed.

(** X7.  The score lies between 0 and 1; it is 0 exactly when query and
    chunk text have no token in common, and 1 exactly when they have the
    same tokens and at least one. *)
Theorem X7_score_range (query text : jsstring) :
  (0 <= calculateScore (tokenize query) (tokenize text) <= 1)%Q /\
  ((calculateScore (tokenize query) (tokenize text) == 0)%Q <->
     tokenSet query ∩ tokenSet text = ∅) /\
  ((calculateScore (tokenize query) (tokenize text) == 1)%Q <->
     tokenSet query = tokenSet text /\ tokenSet query <> ∅).
Proof.
  rewrite calculateScore_jaccard.
  set (X := tokenSet query). set (Y := tokenSet text).
  destruct (jaccard_sizes X Y) as [HX HY].
  unfold jaccard. cbv zeta.
  set (a := Z.of_nat (size (X ∩ Y))).
  set (u := Z.of_nat (size X) + Z.of_nat (size Y) - a).
  assert (0 <= a <= u) as Ha by (unfold u, a; lia).
  assert (0 < (if u =? 0 then 1 else u)) as Hd by (destruct (Z.eqb_spec u 0); lia).
  split; [split|split].
  - apply jaccard_nonnegative.
  - apply Qle_shift_div_r.
    + change 0%Q with (inject_Z 0). by rewrite <- Zlt_Qlt.
    + rewrite Qmult_1_l, <- Zle_Qle. destruct (Z.eqb_spec u 0); lia.
  - change 0%Q with (inject_Z 0). rewrite (Qdiv_inject_eq _ _ 0 Hd), Z.mul_0_l.
    unfold a. split.
    + intros H. apply leibniz_equiv, size_empty_inv. lia.
    + intros ->. by rewrite size_empty.
  - change 1%Q with (inject_Z 1). rewrite (Qdiv_inject_eq _ _ 1 Hd), Z.mul_1_l.
    split.
    + intros H. destruct (Z.eqb_spec u 0) as [Hu|Hu]; [lia|].
      assert (size (X ∩ Y) = size X /\ size (X ∩ Y) = size Y) as [H1 H2]
        by (unfold u, a in *; lia).
      assert (X ∩ Y = X) as HeqX.
      { apply set_subseteq_size_eq; [apply intersection_subseteq_l|lia]. }
      assert (X ∩ Y = Y) as HeqY.
      { apply set_subseteq_size_eq; [apply intersection_subseteq_r|lia]. }
      split; [congruence|].
      intros HX0.
      assert (size X = 0%nat) as HsX by (rewrite HX0; apply size_empty).
      unfold u, a in Hu. lia.
    + intros [Heq Hne].
      assert (size X <> 0%nat) as Hsz.
      { intros H0. by apply size_empty_inv, leibniz_equiv in H0. }
      unfold u, a. rewrite <- Heq.
      rewrite (idemp_L (∩) X).
      destruct (Z.eqb_spec (Z.of_nat (size X) + Z.of_nat (size X) - Z.of_nat (size X)) 0);
        lia.
Qed.

(** X8.  The score is symmetric: a text scores against a query what the
    query scores against the text. *)
Theorem X8_score_symmetric (query text : jsstring) :
  calculateScore (tokenize query) (tokenize text) =
  calculateScore (tokenize text) (tokenize query).
Proof.
  rewrite !calculateScore_jaccard. unfold jaccard. cbv zeta.
  rewrite (comm_L (∩) (tokenSet text) (tokenSet query)).
  by rewrite (Z.add_comm (Z.of_nat (size (tokenSet text)))).
Qed.

(** ** The retriever: letter case *)

Lemma toLowerCase_app (a b : jsstring) :
  toLowerCase (a ++ b) = toLowerCase a ++ toLowerCase b.
Proof. unfold toLowerCase. by rewrite map_app, concat_app. Qed.

Lemma toLowerCase_lowerUnit (c : Z) : toLowerCase (lowerUnit c) = lowerUnit c.
Proof.
  unfold toLowerCase, lowerUnit.
  destruct (Z.leb_spec 65 c), (Z.leb_spec c 90); simpl;
    try (destruct (Z.eqb_spec c 0x130) as [->|?];
         [|destruct (Z.eqb_spec c 0x212A) as [->|?]]);
    simpl; try done; unfold lowerUnit;
    repeat match goal with
    | |- context [?a <=? ?b] => destruct (Z.leb_spec a b)
    | |- context [?a =? ?b] => destruct (Z.eqb_spec a b)
    end; simpl; try done; lia.
Qed.

Lemma toLowerCase_idempotent (s : jsstring) :
  toLowerCase (toLowerCase s) = toLowerCase s.
Proof.
  induction s as [|c s IH]; [done|].
  change (toLowerCase (c :: s)) with (lowerUnit c ++ toLowerCase s).
  by rewrite toLowerCase_app, toLowerCase_lowerUnit, IH.
Qed.

(** X9.  Scoring is blind to letter case: lower-casing the query or the
    chunk text beforehand changes neither the tokens nor the score. *)
Theorem X9_case_insensitive (query text : jsstring) :
  tokenize (toLowerCase text) = tokenize text /\
  calculateScore (tokenize (toLowerCase query)) (tokenize (toLowerCase text)) =
  calculateScore (tokenize query) (tokenize text).
Proof.
  assert (forall t, tokenize (toLowerCase t) = tokenize t) as H.
  { intros t. unfold tokenize. by rewrite toLowerCase_idempotent. }
  by rewrite !H.
Qed.

(** ** The retriever: what is selected *)

Lemma insertSorted_Permutation {A} (cmp : A -> A -> Q) x : forall l,
  insertSorted cmp x l ≡ₚ x :: l.
Proof.
  induction l as [|y l IH]; simpl; [done|].
  destruct (Qle_bool (cmp x y) 0); [done|].
  rewrite IH. apply Permutation_swap.
Qed.

Lemma sort_Permutation {A} (cmp : A -> A -> Q) : forall l, sort cmp l ≡ₚ l.
Proof.
  induction l as [|x l IH]; simpl; [done|].
  by rewrite insertSorted_Permutation, IH.
Qed.

(** X10.  The chunks returned are a selection of the input chunks, each
    occurring as often as it does there, and none of the chunks left out
    scores higher than a chunk returned. *)
Theorem X10_top_scores_are_selected (query : jsstring)
    (allChunks : list DocumentChunk) (topK : Z) :
  exists leftOut,
    retrieveRelevantChunks query allChunks topK ++ leftOut ≡ₚ allChunks /\
    Forall (fun c =>
              Forall (fun d => (scoreOf query d <= scoreOf query c)%Q) leftOut)
           (retrieveRelevantChunks query allChunks topK).
Proof.
  rewrite retrieveRelevantChunks_sorted_prefix, slice_from_0.
  set (n := Z.to_nat _).
  set (sorted := sort _ allChunks).
  exists (drop n sorted). split.
  - rewrite take_drop. apply sort_Permutation.
  - pose proof (sort_sorted (scoreOf query) allChunks) as Hsorted.
    fold sorted in Hsorted. rewrite <- (take_drop n sorted) in Hsorted.
    apply Forall_forall. intros c Hc. apply Forall_forall. intros d Hd.
    exact (StronglySorted_app_1_elem_of _ _ _ _ _ Hsorted Hc Hd).
Qed.

(** X11.  A negative [topK] does not give an empty result: the call
    returns the whole ranking without its last [-topK] chunks. *)
Theorem X11_negative_topK (query : jsstring) (allChunks : list DocumentChunk)
    (topK : Z) :
  topK < 0 ->
  retrieveRelevantChunks query allChunks topK =
    take (Z.to_nat (len allChunks + topK))
         (retrieveRelevantChunks query allChunks (len allChunks)) /\
  len (retrieveRelevantChunks query allChunks topK) = Z.max (len allChunks + topK) 0.
Proof.
  intros Hk. rewrite !retrieveRelevantChunks_sorted_prefix, !slice_from_0.
  destruct (Z.ltb_spec topK 0); [|lia].
  destruct (Z.ltb_spec (len allChunks) 0); [unfold len in *; lia|].
  unfold len. rewrite !sort_length.
  rewrite Z.min_id, Nat2Z.id.
  rewrite (take_ge (sort _ allChunks) (length allChunks)) by (rewrite sort_length; lia).
  split.
  - f_equal. lia.
  - rewrite length_take, sort_length. lia.
Qed.

Lemma X11_negative_topK_witness :
  -1 < 0 /\
  retrieveRelevantChunks (lit "connection refused port 8080") scenarioB (-1) =
    take (Z.to_nat (len scenarioB + -1))
         (retrieveRelevantChunks (lit "connection refused port 8080") scenarioB
            (len scenarioB)) /\
  len (retrieveRelevantChunks (lit "connection refused port 8080") scenarioB (-1)) =
    Z.max (len scenarioB + -1) 0.
Proof.
  split; [lia|].
  apply (X11_negative_topK (lit "connection refused port 8080") scenarioB (-1)). lia.
Defined.

(** X12.  When [topK] is at least the number of chunks the result is the
    whole collection, rearranged. *)
Theorem X12_large_topK (query : jsstring) (allChunks : list DocumentChunk) (topK : Z) :
  len allChunks <= topK ->
  retrieveRelevantChunks query allChunks topK ≡ₚ allChunks.
Proof.
  intros Hk. rewrite retrieveRelevantChunks_sorted_prefix, slice_from_0.
  destruct (Z.ltb_spec topK 0); [unfold len in *; lia|].
  rewrite take_ge; [apply sort_Permutation|].
  unfold len in *. rewrite !sort_length. lia.
Qed.

Lemma X12_large_topK_witness :
  len scenarioB <= 3 /\
  retrieveRelevantChunks (lit "rollback guide") scenarioB 3 ≡ₚ scenarioB.
Proof.
  split; [vm_compute; discriminate|].
  apply (X12_large_topK (lit "rollback guide") scenarioB 3). vm_compute. discriminate.
Defined.

(** X13.  A query without a token (every word shorter than three
    characters) ranks nothing: the result is the input cut by
    [slice(0, topK)], in input order. *)
Theorem X13_query_without_tokens (query : jsstring) (allChunks : list DocumentChunk)
    (topK : Z) :
  tokenize query = [] ->
  retrieveRelevantChunks query allChunks topK = slice allChunks 0 topK /\
  Forall (fun c => (scoreOf query c == 0)%Q) allChunks.
Proof.
  intros Hq.
  assert (forall c, (scoreOf query c == 0)%Q) as Hzero.
  { intros c. unfold scoreOf, calculateScore. cbv zeta. rewrite Hq.
    cbn [countOverlap]. unfold Qdiv. apply Qmult_0_l. }
  split; [|apply Forall_forall; intros c _; apply Hzero].
  rewrite retrieveRelevantChunks_sorted_prefix.
  rewrite (sort_all_equal (scoreOf query) 0); [done|].
  apply Forall_forall. intros c _. apply Hzero.
Qed.

Lemma X13_query_without_tokens_witness :
  tokenize (lit "db is up?") = [] /\
  retrieveRelevantChunks (lit "db is up?") scenarioB 1 = slice scenarioB 0 1 /\
  Forall (fun c => (scoreOf (lit "db is up?") c == 0)%Q) scenarioB.
Proof.
  split; [reflexivity|].
  apply (X13_query_without_tokens (lit "db is up?") scenarioB 1). reflexivity.
Defined.

(** ** The document collection and the pipeline *)




Lemma createChunksFromDoc_returns (fuel : nat) (docId content : jsstring) :
  (8 <= fuel)%nat -> is_Some (createChunksFromDoc fuel docId content).
Proof.
  intros Hfuel. unfold createChunksFromDoc.
  destruct (recursiveCharacterSplit_terminates 500 50 fuel content) as [raw ->];
    [lia|lia|by eexists].
Qed.



(** X15.  Both updates of the collection keep the link between a document
    and its chunks: if every chunk names its document as source, then
    [handleAddDoc] returns a collection where every chunk does, and every
    chunk does after [deleteDoc]. *)
Theorem X15_chunks_cite_their_document (fuel now : nat) (date : Z)
    (newTitle newContent id' : jsstring) (docs : list DocManager.KnowledgeDoc) :
  (8 <= fuel)%nat ->
  chunksCiteOwner docs ->
  exists docs',
    DocManager.handleAddDoc fuel now date newTitle newContent docs = Some docs' /\
    chunksCiteOwner docs' /\
    chunksCiteOwner (DocManager.deleteDoc id' docs) /\
    chunksCiteOwner (DocManager.deleteDoc id' docs').
Proof.
  unfold chunksCiteOwner. intros Hfuel Hinv.
  assert (forall l, Forall (fun d => Forall (fun c => sourceId c = DocManager.id d)
                                       (DocManager.chunks d)) l ->
          Forall (fun d => Forall (fun c => sourceId c = DocManager.id d)
                             (DocManager.chunks d)) (DocManager.deleteDoc id' l)) as Hdel.
  { intros l Hl. apply Forall_forall. intros d Hd.
    apply list_elem_of_In, List.filter_In in Hd as [Hd _].
    rewrite Forall_forall in Hl. by apply Hl, list_elem_of_In. }
  assert (exists docs',
    DocManager.handleAddDoc fuel now date newTitle newContent docs = Some docs' /\
    Forall (fun d => Forall (fun c => sourceId c = DocManager.id d)
                       (DocManager.chunks d)) docs') as (docs' & Hadd & Hinv').
  { unfold DocManager.handleAddDoc.
    destruct (negb (truthy newTitle) || negb (truthy newContent)); [by exists docs|].
    cbv zeta.
    destruct (createChunksFromDoc_returns fuel (lit "doc-" ++ numberToString now)
                newContent Hfuel) as [chunks Hchunks].
    rewrite Hchunks. eexists. split; [done|].
    apply Forall_app; split; [done|].
    constructor; [|constructor]. cbn [DocManager.chunks DocManager.id].
    unfold createChunksFromDoc in Hchunks.
    destruct (recursiveCharacterSplit fuel newContent 500 50) as [raw|]; [|discriminate].
    injection Hchunks as <-.
    generalize 0%nat. induction raw as [|t raw IH]; intros idx; simpl; [constructor|].
    constructor; [done|apply IH]. }
  exists docs'. split; [done|]. split; [done|]. split; by apply Hdel.
Qed.

(** On [knowledgeBase]: a third document is added, and deleting "doc-1"
    leaves "doc-2". *)
Lemma X15_chunks_cite_their_document_witness :
  (8 <= 8)%nat /\
  chunksCiteOwner knowledgeBase /\
  length (DocManager.deleteDoc (lit "doc-1") knowledgeBase) = 1%nat /\
  exists docs',
    DocManager.handleAddDoc 8 1700 0 (lit "K8s guide") (lit "kubectl get pods")
      knowledgeBase = Some docs' /\
    chunksCiteOwner docs' /\
    chunksCiteOwner (DocManager.deleteDoc (lit "doc-1") knowledgeBase) /\
    chunksCiteOwner (DocManager.deleteDoc (lit "doc-1") docs').
Proof.
  assert (chunksCiteOwner knowledgeBase) as Hinv by (by repeat constructor).
  split; [lia|]. split; [exact Hinv|]. split; [reflexivity|].
  apply (X15_chunks_cite_their_document 8 1700 0 (lit "K8s guide")
           (lit "kubectl get pods") (lit "doc-1") knowledgeBase); [lia|exact Hinv].
Defined.

Lemma retrievalStep_elem_of query docs c :
  c ∈ App.retrievalStep query docs ->
  exists d, d ∈ docs /\ c ∈ DocManager.chunks d.
Proof.
  unfold App.retrievalStep. cbv zeta.
  rewrite retrieveRelevantChunks_sorted_prefix, slice_from_0. intros Hc.
  apply elem_of_take in Hc as (i & Hc & _).
  apply list_elem_of_lookup_2 in Hc.
  rewrite sort_Permutation in Hc.
  apply list_elem_of_In, in_concat in Hc as (l & Hl & Hcl).
  apply in_map_iff in Hl as (d & <- & Hd).
  exists d. split; by apply list_elem_of_In.
Qed.

(** X16.  The retrieval step of the pipeline hands on at most three
    chunks, each of them a chunk of a document of the collection; with an
    empty collection it hands on none. *)
Theorem X16_retrieval_step (searchQuery : jsstring)
    (docs : list DocManager.KnowledgeDoc) :
  len (App.retrievalStep searchQuery docs) <= 3 /\
  Forall (fun c => exists d, d ∈ docs /\ c ∈ DocManager.chunks d)
         (App.retrievalStep searchQuery docs) /\
  App.retrievalStep searchQuery [] = [].
Proof.
  split; [|split; [|done]].
  - unfold App.retrievalStep. cbv zeta.
    rewrite retrieveRelevantChunks_sorted_prefix, slice_from_0.
    unfold len. rewrite length_take.
    change (3 <? 0) with false. cbv iota. lia.
  - apply Forall_forall. intros c Hc. by apply (retrievalStep_elem_of searchQuery).
Qed.



(** ** The context block of the prompt *)

Lemma join_isSubstring (sep x : jsstring) : forall l,
  x ∈ l -> isSubstring x (Gemini.join l sep).
Proof.
  induction l as [|y l IH]; intros Hx; [by apply elem_of_nil in Hx|].
  destruct l as [|z l].
  - apply list_elem_of_singleton in Hx as ->. apply isSubstring_refl.
  - change (Gemini.join (y :: z :: l) sep) with (y ++ sep ++ Gemini.join (z :: l) sep).
    apply elem_of_cons in Hx as [->|Hx].
    + exists [], (sep ++ Gemini.join (z :: l) sep). done.
    + eapply isSubstring_trans; [by apply IH|].
      exists (y ++ sep), []. by rewrite app_nil_r, <- app_assoc.
Qed.

(** X18.  Every chunk handed to [generateRAGSolution] is in the context
    block of the prompt, tagged with its source: the text
    [[Source ID: <sourceId>]: <content>] is a contiguous part of the block;
    with no chunks the block is empty. *)
Theorem X18_context_cites_every_chunk (chunks : list DocumentChunk) :
  Forall (fun c =>
            isSubstring (lit "[Source ID: " ++ sourceId c ++ lit "]: " ++ content c)
                        (Gemini.contextText chunks))
         chunks /\
  Gemini.contextText [] = [].
Proof.
  split; [|done]. apply Forall_forall. intros c Hc.
  apply join_isSubstring.
  apply list_elem_of_In, in_map_iff. exists c. split; [done|by apply list_elem_of_In].
Qed.

(** ** The splitter without a usable chunk size *)

Section NoProgress.
Variables chunkSize chunkOverlap : Z.

Lemma processLoop_stuck recur : forall goodSplits processedSplits,
  Exists (fun c => chunkSize < len c /\ recur c = None) goodSplits ->
  processLoop chunkSize recur goodSplits processedSplits = None.
Proof.
  induction goodSplits as [|c rest IH]; intros acc Hex; [by inversion Hex|].
  simpl. inversion Hex as [? ? [Hbig Hnone]|? ? Hrest]; subst.
  - destruct (Z.ltb_spec chunkSize (len c)); [|lia]. by rewrite Hnone.
  - destruct (chunkSize <? len c); [|by apply IH].
    destruct (recur c); [by apply IH|done].
Qed.

Lemma concat_withoutSeparators_Exists (l : list jsstring) :
  withoutSeparators (concat l) <> [] -> Exists (fun c => withoutSeparators c <> []) l.
Proof.
  induction l as [|c l IH]; [done|].
  cbn [concat]. rewrite withoutSeparators_app. intros H.
  destruct (withoutSeparators c) eqn:Hc; [right; by apply IH|].
  left. by rewrite Hc.
Qed.

Lemma level_withoutSeparators (t : jsstring) (separatorIndex : nat) :
  let separator := nth separatorIndex separators [] in
  withoutSeparators
    (concat (recombineLoop chunkSize separator
               (if bool_decide (separator = [])
                then arrayFrom t else split t separator) [] [])) =
  withoutSeparators t.
Proof.
  cbv zeta.
  assert (withoutSeparators (nth separatorIndex separators []) = []) as Hsep.
  { destruct separatorIndex as [|[|[|[|[|?]]]]]; done. }
  rewrite (recombineLoop_withoutSeparators _ _ Hsep). cbn [concat]. rewrite !app_nil_l.
  destruct (bool_decide_reflect (nth separatorIndex separators [] = [])) as [Hnil|Hne].
  - by rewrite arrayFrom_concat.
  - by apply split_withoutSeparators.
Qed.

Lemma splitText_stuck fuel : forall currentText separatorIndex,
  chunkSize <= 0 -> chunkSize <= chunkOverlap ->
  withoutSeparators currentText <> [] ->
  splitText chunkSize chunkOverlap fuel currentText separatorIndex = None.
Proof.
  unfold splitText.
  induction fuel as [|fuel IH]; intros t idx Hcs Hco Ht; [done|].
  assert (0 < len t) as Hlen.
  { destruct t; [done|]. unfold len. simpl. lia. }
  rewrite splitTextWith_S.
  destruct (Z.leb_spec (len t) chunkSize); [lia|].
  destruct (length separators <=? idx)%nat.
  - apply hardSplitLoop_diverges; lia.
  - cbv zeta. apply processLoop_stuck.
    pose proof (level_withoutSeparators t idx) as Hkept. cbv zeta in Hkept.
    rewrite <- Hkept in Ht. apply concat_withoutSeparators_Exists in Ht.
    eapply Exists_impl; [exact Ht|]. intros c Hc. split.
    + destruct c; [done|]. unfold len. simpl. lia.
    + by apply IH.
Qed.

End NoProgress.

(** X19.  With a chunk size of 0 or less and an overlap not below it, the
    call never returns on a text that has any code unit other than line
    feeds and spaces: every piece is sent down to the hard split, whose
    loop then does not advance. *)
Theorem X19_no_return_without_chunk_size (text : jsstring) (chunkSize chunkOverlap : Z) :
  chunkSize <= 0 -> chunkSize <= chunkOverlap ->
  withoutSeparators text <> [] ->
  forall fuel, recursiveCharacterSplit fuel text chunkSize chunkOverlap = None.
Proof.
  intros Hcs Hco Ht fuel. by apply splitText_stuck.
Qed.

Lemma X19_no_return_without_chunk_size_witness :
  0 <= 0 /\ 0 <= 50 /\ withoutSeparators (lit "OOMKilled pod") <> [] /\
  forall fuel, recursiveCharacterSplit fuel (lit "OOMKilled pod") 0 50 = None.
Proof.
  split; [lia|]. split; [lia|]. split; [done|].
  apply (X19_no_return_without_chunk_size (lit "OOMKilled pod") 0 50); [lia|lia|done].
Defined.

(** ** The retriever: the first result *)

(** X20.  The first chunk returned is a best match: no chunk of the
    collection scores higher than it. *)
Theorem X20_first_result_is_best (query : jsstring) (allChunks : list DocumentChunk)
    (topK : Z) (best : DocumentChunk) (others : list DocumentChunk) :
  retrieveRelevantChunks query allChunks topK = best :: others ->
  Forall (fun c => (scoreOf query c <= scoreOf query best)%Q) allChunks.
Proof.
  rewrite retrieveRelevantChunks_sorted_prefix, slice_from_0.
  set (n := Z.to_nat _). intros Hres.
  pose proof (sort_sorted (scoreOf query) allChunks) as Hsorted.
  pose proof (sort_Permutation (fun a b => (scoreOf query b - scoreOf query a)%Q)
                allChunks) as Hperm.
  destruct (sort _ allChunks) as [|c sorted]; [by destruct n|].
  destruct n as [|n]; [done|]. cbn [take] in Hres. injection Hres as -> _.
  rewrite <- Hperm.
  inversion Hsorted as [|? ? _ Hall]; subst.
  constructor; [apply Qle_refl|done].
Qed.

Lemma X20_first_result_is_best_witness :
  retrieveRelevantChunks (lit "deployment rollback") scenarioB 1 =
    [ {| id := lit "c2"; sourceId := lit "doc-1";
         content := lit "Unrelated deployment rollback guide";
         metadata := {| startIndex := 1; endIndex := 2 |} |} ] /\
  Forall (fun c =>
            (scoreOf (lit "deployment rollback") c <=
             scoreOf (lit "deployment rollback")
               {| id := lit "c2"; sourceId := lit "doc-1";
                  content := lit "Unrelated deployment rollback guide";
                  metadata := {| startIndex := 1; endIndex := 2 |} |})%Q)
         scenarioB.
Proof.
  split; [vm_compute; reflexivity|].
  apply (X20_first_result_is_best (lit "deployment rollback") scenarioB 1 _ []).
  vm_compute. reflexivity.
Defined.
